(** * Huffman coding for text files: a shallow embedding of [main.py]

    The Python program compresses a text with a static Huffman code and
    decompresses it again from the packed bytes and a persisted code table.
    This development embeds the program function by function and proves
    (or refutes) the properties its specification states.

    Conventions of the embedding:
    - a Python [str] is a list of Unicode code points ([N]); the bit strings
      of the program are such strings over the characters '0' and '1';
    - Python exceptions are values of [exn], fallible functions return a
      [result];
    - [self.frequency] and [self.codes] are dictionaries whose iteration
      order matters (it fixes the heap's tie-breaks and the order of the
      lines of the table file): they are association lists in insertion
      order; [self.reverse_mapping] is only ever looked up: it is a [gmap];
    - files are passed as values; a text file holds a [str] and gives it
      back as written, except that reading translates carriage returns
      (universal newlines); the encoding of the characters is not modelled;
    - [heapq] is embedded as CPython implements it (an array-based binary
      heap in a list, [_siftdown] and [_siftup]), so that ties are broken
      as in the program; it is embedded a second time with each comparison
      of two items dispatched through their class and logged, to tell
      which comparison methods a run calls. *)

From Stdlib Require Import ZArith NArith List Lia String Ascii Permutation.
From stdpp Require Import base option list gmap.

Open Scope nat_scope.

(** ** Strings *)

Definition char := N.
Definition str := list char.

Definition str_of (s : string) : str :=
  map N_of_ascii (list_ascii_of_string s).

Definition c0 : char := 48%N.        (* '0' *)
Definition c1 : char := 49%N.        (* '1' *)
Definition c_nl : char := 10%N.      (* '\n' *)
Definition c_cr : char := 13%N.      (* '\r' *)
Definition c_sp : char := 32%N.      (* ' ' *)
Definition c_bs : char := 92%N.      (* '\\' *)
Definition c_n : char := 110%N.      (* 'n' *)
Definition c_s : char := 115%N.      (* 's' *)

(** [str.isspace] of a one-character string: the code points CPython's
    [_PyUnicode_IsWhitespace] accepts. [str.strip()] and [str.split()]
    without arguments use this set. *)
Definition isspace (c : char) : bool :=
  ((9 <=? c) && (c <=? 13) || (28 <=? c) && (c <=? 32)
   || (c =? 133) || (c =? 160) || (c =? 5760)
   || (8192 <=? c) && (c <=? 8202)
   || (c =? 8232) || (c =? 8233) || (c =? 8239) || (c =? 8287)
   || (c =? 12288))%N.

(** ** Exceptions *)

Inductive exn :=
| IndexError | KeyError | ValueError | AttributeError | FileNotFoundError
| SystemExit | TypeError.

Inductive result (A : Type) :=
| Ok (a : A)
| Raise (e : exn).
Arguments Ok {A} a.
Arguments Raise {A} e.

Definition bind {A B} (r : result A) (k : A -> result B) : result B :=
  match r with
  | Ok a => k a
  | Raise e => Raise e
  end.

Declare Scope result_scope.
Delimit Scope result_scope with result.
Notation "'do' x <- r ; k" := (bind r (fun x => k))
  (at level 10, x pattern, r at level 100, k at level 200) : result_scope.
Open Scope result_scope.

Fixpoint mapM {A B} (f : A -> result B) (l : list A) : result (list B) :=
  match l with
  | [] => Ok []
  | a :: l' => do b <- f a; do bs <- mapM f l'; Ok (b :: bs)
  end.

(** ** Python built-ins used on bit strings *)

(** [bin(n)[2:]], also the digits that the format [b] prints. *)
Fixpoint pos_bits (p : positive) : str :=
  match p with
  | xH => [c1]
  | xO q => pos_bits q ++ [c0]
  | xI q => pos_bits q ++ [c1]
  end.

Definition bin (n : N) : str :=
  match n with
  | N0 => [c0]
  | Npos p => pos_bits p
  end.

(** [s.rjust(w, fill)] *)
Definition rjust (w : nat) (fill : char) (s : str) : str :=
  repeat fill (w - length s) ++ s.

(** ["{0:08b}".format(n)] *)
Definition format_08b (n : N) : str := rjust 8 c0 (bin n).

(** [int(s, 2)] on strings of binary digits. The empty string and any
    character other than '0' and '1' raise [ValueError]; the prefixes,
    signs, underscores and surrounding blanks that [int] also accepts do
    not occur in the strings the program builds and are not modelled. *)
Fixpoint int2_acc (acc : N) (s : str) : result N :=
  match s with
  | [] => Ok acc
  | c :: s' =>
      if (c =? c0)%N then int2_acc (2 * acc)%N s'
      else if (c =? c1)%N then int2_acc (2 * acc + 1)%N s'
      else Raise ValueError
  end.

Definition int2 (s : str) : result N :=
  match s with
  | [] => Raise ValueError
  | _ => int2_acc 0%N s
  end.

(** [range(start, stop, step)] for [step > 0]. *)
Definition range3 (start stop step : nat) : list nat :=
  map (fun j => start + j * step) (seq 0 ((stop - start + step - 1) / step)).

(** [s[i:j]], [s[:-k]] *)
Definition slice (s : str) (i j : nat) : str := firstn (j - i) (skipn i s).

Definition drop_last (k : nat) (s : str) : str :=
  match k with
  | 0 => []                               (* s[:-0] is s[:0] *)
  | _ => firstn (length s - k) s
  end.

(** ** Bit packer *)

(** [pad_encoded_text] *)
Definition pad_encoded_text (encoded_text : str) : str :=
  let extra_padding := 8 - length encoded_text mod 8 in
  let encoded_text := encoded_text ++ repeat c0 extra_padding in
  let padded_info := format_08b (N.of_nat extra_padding) in
  padded_info ++ encoded_text.

(** [bytearray.append] accepts the integers in [range(256)] only. *)
Definition bytearray_append (b : list N) (v : N) : result (list N) :=
  if (v <? 256)%N then Ok (b ++ [v]) else Raise ValueError.

(** [get_byte_array]: [exit(0)] is the [SystemExit] exception. *)
Definition get_byte_array (padded_encoded_text : str) : result (list N) :=
  if negb (length padded_encoded_text mod 8 =? 0) then Raise SystemExit
  else
    fold_left
      (fun b i =>
         do b <- b;
         do v <- int2 (slice padded_encoded_text i (i + 8));
         bytearray_append b v)
      (range3 0 (length padded_encoded_text) 8) (Ok []).

(** ** Bit unpacker *)

(** The loop of [decompress] that expands the bytes read from the file. *)
Definition bits_of_bytes (bs : list N) : str :=
  fold_left (fun bit_string byte => bit_string ++ rjust 8 c0 (bin byte)) bs [].

(** [remove_padding] *)
Definition remove_padding (padded_encoded_text : str) : result str :=
  let padded_info := firstn 8 padded_encoded_text in
  do extra_padding <- int2 padded_info;
  let padded_encoded_text := skipn 8 padded_encoded_text in
  Ok (drop_last (N.to_nat extra_padding) padded_encoded_text).

Example pad_ex : pad_encoded_text (str_of "101") = str_of "0000010110100000".
Proof. reflexivity. Qed.

Example bytes_ex : get_byte_array (pad_encoded_text (str_of "101")) = Ok [5; 160]%N.
Proof. reflexivity. Qed.

Example unpad_ex :
  remove_padding (bits_of_bytes [5; 160]%N) = Ok (str_of "101").
Proof. reflexivity. Qed.

(** ** [heapq]

    The items of a heap are compared with [<] only; [lt] is the item
    type's [__lt__]. Positions handed to [_siftdown] and [_siftup] are
    below the length of the list, so the list reads below never fail. The
    [fuel] of a loop bounds its number of iterations and is never used
    up before the loop's own test ends it. *)

Section heapq.
Context {A : Type} (lt : A -> A -> bool).

Fixpoint _siftdown_loop (fuel : nat) (heap : list A) (newitem : A)
      (startpos pos : nat) : list A * nat :=
    match fuel with
    | 0 => (heap, pos)
    | S fuel =>
        if startpos <? pos then
          let parentpos := (pos - 1) / 2 in
          match heap !! parentpos with
          | Some parent =>
              if lt newitem parent
              then _siftdown_loop fuel (<[pos:=parent]> heap) newitem startpos parentpos
              else (heap, pos)
          | None => (heap, pos)
          end
        else (heap, pos)
    end.

Definition _siftdown (heap : list A) (startpos pos : nat) : list A :=
    match heap !! pos with
    | Some newitem =>
        let '(heap, pos) := _siftdown_loop pos heap newitem startpos pos in
        <[pos:=newitem]> heap
    | None => heap
    end.

  (** [heap[i] < heap[j]] *)
Definition lt_at (heap : list A) (i j : nat) : bool :=
    match heap !! i, heap !! j with
    | Some a, Some b => lt a b
    | _, _ => false
    end.

Fixpoint _siftup_loop (fuel : nat) (heap : list A) (endpos pos : nat)
      : list A * nat :=
    match fuel with
    | 0 => (heap, pos)
    | S fuel =>
        let childpos := 2 * pos + 1 in
        if childpos <? endpos then
          let rightpos := childpos + 1 in
          let childpos :=
            if (rightpos <? endpos) && negb (lt_at heap childpos rightpos)
            then rightpos else childpos in
          match heap !! childpos with
          | Some child => _siftup_loop fuel (<[pos:=child]> heap) endpos childpos
          | None => (heap, pos)
          end
        else (heap, pos)
    end.

Definition _siftup (heap : list A) (pos : nat) : list A :=
    let endpos := length heap in
    let startpos := pos in
    match heap !! pos with
    | Some newitem =>
        let '(heap, pos) := _siftup_loop (endpos - pos) heap endpos pos in
        _siftdown (<[pos:=newitem]> heap) startpos pos
    | None => heap
    end.

Definition heappush (heap : list A) (item : A) : list A :=
    let heap := heap ++ [item] in
    _siftdown heap 0 (length heap - 1).

Definition heappop (heap : list A) : result (A * list A) :=
    match last heap with
    | None => Raise IndexError
    | Some lastelt =>
        let heap := removelast heap in
        match heap with
        | [] => Ok (lastelt, [])
        | returnitem :: _ => Ok (returnitem, _siftup (<[0:=lastelt]> heap) 0)
        end
    end.
End heapq.

(** ** Dictionaries in insertion order *)

Section dict.
Context {K V : Type} `{EqDecision K}.

Fixpoint dict_get (d : list (K * V)) (k : K) : option V :=
    match d with
    | [] => None
    | (k', v) :: d' => if decide (k' = k) then Some v else dict_get d' k
    end.

  (** [d[k] = v]: an existing key keeps its place, a new one goes last. *)
Fixpoint dict_set (d : list (K * V)) (k : K) (v : V) : list (K * V) :=
    match d with
    | [] => [(k, v)]
    | (k', v') :: d' =>
        if decide (k' = k) then (k', v) :: d' else (k', v') :: dict_set d' k v
    end.
End dict.

(** ** The class [HuffmanCoding] *)

#[local] Set Warnings "-register-all".

Inductive HeapNode :=
| Node (char : option char) (freq : Z) (left : option HeapNode)
       (right : option HeapNode).

Definition node_char (n : HeapNode) := let 'Node c _ _ _ := n in c.
Definition node_freq (n : HeapNode) := let 'Node _ f _ _ := n in f.
Definition node_left (n : HeapNode) := let 'Node _ _ l _ := n in l.
Definition node_right (n : HeapNode) := let 'Node _ _ _ r := n in r.

(** [HeapNode(char, freq)] *)
Definition new_HeapNode (c : option char) (f : Z) : HeapNode :=
  Node c f None None.

(** [HeapNode.__lt__] *)
Definition HeapNode_lt (self other : HeapNode) : bool :=
  (node_freq self <? node_freq other)%Z.

(** The objects [HeapNode.__eq__] can be handed or can meet: [None],
    integers, strings, heap nodes, classes by their name, and objects of
    the other classes that occur as attributes of a heap node (its
    dictionary and its methods, all of them true), by the name of their
    class. *)
Inductive pyobj :=
| PyNone
| PyInt (z : Z)
| PyStr (s : str)
| PyNode (n : HeapNode)
| PyClass (name : string)
| PyOther (cls : string).

Definition truthy (o : pyobj) : bool :=
  match o with
  | PyNone => false
  | PyInt z => negb (z =? 0)%Z
  | PyStr s => negb (length s =? 0)
  | PyNode _ => true        (* no __bool__, no __len__ *)
  | PyClass _ => true
  | PyOther _ => true
  end.

(** The attributes of a heap node (CPython 3.11). [__init__] sets four
    on the instance; the class body defines [__init__], [__lt__] and
    [__eq__] and, having [__eq__] and no [__hash__], gets [__hash__] set
    to [None]; the others come with every class and from [object]. *)
Definition HeapNode_instance_dict (self : HeapNode) : list (string * pyobj) :=
  [("char"%string,
    match node_char self with Some c => PyStr [c] | None => PyNone end);
   ("freq"%string, PyInt (node_freq self));
   ("left"%string,
    match node_left self with Some n => PyNode n | None => PyNone end);
   ("right"%string,
    match node_right self with Some n => PyNode n | None => PyNone end)].

Definition HeapNode_class_dict : list (string * pyobj) :=
  [("__class__", PyClass "HeapNode");
   ("__module__", PyStr (str_of "__main__"));
   ("__dict__", PyOther "dict");
   ("__weakref__", PyNone);
   ("__doc__", PyNone);
   ("__hash__", PyNone);
   ("__init__", PyOther "method");
   ("__lt__", PyOther "method");
   ("__eq__", PyOther "method")]%string.

Definition object_dict : list (string * pyobj) :=
  [("__delattr__", PyOther "method-wrapper");
   ("__dir__", PyOther "builtin_function_or_method");
   ("__format__", PyOther "builtin_function_or_method");
   ("__ge__", PyOther "method-wrapper");
   ("__getattribute__", PyOther "method-wrapper");
   ("__getstate__", PyOther "builtin_function_or_method");
   ("__gt__", PyOther "method-wrapper");
   ("__init_subclass__", PyOther "builtin_function_or_method");
   ("__le__", PyOther "method-wrapper");
   ("__ne__", PyOther "method-wrapper");
   ("__new__", PyOther "builtin_function_or_method");
   ("__reduce__", PyOther "builtin_function_or_method");
   ("__reduce_ex__", PyOther "builtin_function_or_method");
   ("__repr__", PyOther "method-wrapper");
   ("__setattr__", PyOther "method-wrapper");
   ("__sizeof__", PyOther "builtin_function_or_method");
   ("__str__", PyOther "method-wrapper");
   ("__subclasshook__", PyOther "builtin_function_or_method")]%string.

Fixpoint assoc (name : string) (d : list (string * pyobj)) : option pyobj :=
  match d with
  | [] => None
  | (k, v) :: d => if String.eqb k name then Some v else assoc name d
  end.

(** [self.name] on a heap node: the name is looked up on the instance,
    in the class and in [object]; a name found in none of them raises
    [AttributeError]. *)
Definition HeapNode_getattr (self : HeapNode) (name : string) : result pyobj :=
  match
    assoc name
      (HeapNode_instance_dict self ++ HeapNode_class_dict ++ object_dict)
  with
  | Some v => Ok v
  | None => Raise AttributeError
  end.

Definition class_of (o : pyobj) : string :=
  match o with
  | PyNone => "NoneType"
  | PyInt _ => "int"
  | PyStr _ => "str"
  | PyNode _ => "HeapNode"
  | PyClass _ => "type"
  | PyOther cls => cls
  end.

(** [isinstance(o, cls)]; each of the classes above has [object] as its
    only base, and anything but a class as second argument raises
    [TypeError]. *)
Definition isinstance (o cls : pyobj) : result bool :=
  match cls with
  | PyClass c => Ok (String.eqb c (class_of o) || String.eqb c "object")
  | _ => Raise TypeError
  end.

(** [HeapNode.__eq__] *)
Definition HeapNode_eq (self : HeapNode) (other : pyobj) : result bool :=
  if negb (truthy other) then Ok false
  else
    do cls <- HeapNode_getattr self "_class_";
    do inst <- isinstance other cls;
    if negb inst then Ok false
    else
      match other with
      | PyNode other => Ok (node_freq self =? node_freq other)%Z
      | _ => Raise AttributeError     (* no attribute [freq] *)
      end.

(** What [a < b] and [a == b] call on two heap nodes. *)
Inductive cmp_op := Py_LT | Py_EQ.

Definition HeapNode_richcompare (op : cmp_op) (self other : HeapNode)
    : result bool :=
  match op with
  | Py_LT => Ok (HeapNode_lt self other)
  | Py_EQ => HeapNode_eq self (PyNode other)
  end.

Record HuffmanCoding := mkHuffmanCoding {
  heap : list HeapNode;
  frequency : list (char * Z);
  codes : list (char * str);
  reverse_mapping : gmap str str
}.

(** [HuffmanCoding()] *)
Definition new_HuffmanCoding : HuffmanCoding :=
  mkHuffmanCoding [] [] [] ∅.

(** [Counter(text)] *)
Definition Counter (text : str) : list (char * Z) :=
  fold_left
    (fun d c => dict_set d c (default 0%Z (dict_get d c) + 1)%Z) text [].

Definition make_frequency_dict (self : HuffmanCoding) (text : str)
    : HuffmanCoding :=
  mkHuffmanCoding (heap self) (Counter text) (codes self)
    (reverse_mapping self).

Definition make_heap (self : HuffmanCoding) (freq : list (char * Z))
    : HuffmanCoding :=
  fold_left
    (fun self '(key, f) =>
       let node := new_HeapNode (Some key) f in
       mkHuffmanCoding (heappush HeapNode_lt (heap self) node)
         (frequency self) (codes self) (reverse_mapping self))
    freq self.

(** One pass of the loop of [merge_nodes]. *)
Definition merge_step (heap : list HeapNode) : result (list HeapNode) :=
  do (node1, heap) <- heappop HeapNode_lt heap;
  do (node2, heap) <- heappop HeapNode_lt heap;
  let merged :=
    Node None (node_freq node1 + node_freq node2) (Some node1) (Some node2) in
  Ok (heappush HeapNode_lt heap merged).

Fixpoint merge_nodes_loop (fuel : nat) (heap : list HeapNode)
    : result (list HeapNode) :=
  match fuel with
  | 0 => Ok heap
  | S fuel =>
      if 1 <? length heap then
        do heap <- merge_step heap;
        merge_nodes_loop fuel heap
      else Ok heap
  end.

Definition merge_nodes (self : HuffmanCoding) : result HuffmanCoding :=
  do h <- merge_nodes_loop (length (heap self) - 1) (heap self);
  Ok (mkHuffmanCoding h (frequency self) (codes self) (reverse_mapping self)).

(** [make_codes_helper]: the test [root is None] is the match on the
    optional child at each call. *)
Fixpoint make_codes_helper (self : HuffmanCoding) (root : HeapNode)
    (current_code : str) : HuffmanCoding :=
  match root with
  | Node ch _ l r =>
      let self :=
        match ch with
        | Some c =>
            mkHuffmanCoding (heap self) (frequency self)
              (dict_set (codes self) c current_code)
              (<[current_code := [c]]> (reverse_mapping self))
        | None => self
        end in
      let self :=
        match l with
        | Some l => make_codes_helper self l (current_code ++ [c0])
        | None => self
        end in
      match r with
      | Some r => make_codes_helper self r (current_code ++ [c1])
      | None => self
      end
  end.

Definition make_codes (self : HuffmanCoding) : result HuffmanCoding :=
  do (root, h) <- heappop HeapNode_lt (heap self);
  let self :=
    mkHuffmanCoding h (frequency self) (codes self) (reverse_mapping self) in
  let current_code := [] in
  Ok (make_codes_helper self root current_code).

(** The code table of a frequency map: the calls of [compress] between
    [make_frequency_dict] and [get_encoded_text], on a new object. *)
Definition build_codes (freq : list (char * Z)) : result (list (char * str)) :=
  do self <- merge_nodes (make_heap new_HuffmanCoding freq);
  do self <- make_codes self;
  Ok (codes self).

(** [get_encoded_text]: [self.codes[character]] raises [KeyError] for a
    missing key. *)
Definition get_encoded_text (self : HuffmanCoding) (text : str) : result str :=
  fold_left
    (fun encoded_text character =>
       do encoded_text <- encoded_text;
       match dict_get (codes self) character with
       | Some code => Ok (encoded_text ++ code)
       | None => Raise KeyError
       end)
    text (Ok []).

(** ** The persisted code table *)

(** The symbol as [output_codes] writes it. *)
Definition escape (c : char) : str :=
  if (c =? c_nl)%N then [c_bs; c_n]
  else if (c =? c_sp)%N then [c_bs; c_s]
  else [c].

(** [output_codes]: the text written to the table file. *)
Definition output_codes (self : HuffmanCoding) : str :=
  fold_left
    (fun file '(c, code) => file ++ escape c ++ [c_sp] ++ code ++ [c_nl])
    (codes self) [].

(** [calculate_metrics]: the two integer sums it starts with. What it
    derives from them (average code length, entropy, efficiency, ratio)
    are floating-point numbers and are not modelled. *)
Definition total_length (self : HuffmanCoding) : result Z :=
  fold_left
    (fun acc '(c, f) =>
       do acc <- acc;
       match dict_get (codes self) c with
       | Some code => Ok (acc + Z.of_nat (length code) * f)%Z
       | None => Raise KeyError
       end)
    (frequency self) (Ok 0%Z).

Definition total_chars (self : HuffmanCoding) : Z :=
  fold_left (fun acc '(_, f) => (acc + f)%Z) (frequency self) 0%Z.

(** Reading a file opened in text mode: a lone carriage return and a
    carriage return followed by a line feed both read as a line feed. *)
Fixpoint universal_newlines (s : str) : str :=
  match s with
  | [] => []
  | c :: s' =>
      if (c =? c_cr)%N then
        c_nl :: match s' with
                | c' :: s'' =>
                    if (c' =? c_nl)%N then universal_newlines s''
                    else universal_newlines s'
                | [] => []
                end
      else c :: universal_newlines s'
  end.

(** [for line in file]: the lines, each with its line feed. *)
Fixpoint readlines (s : str) : list str :=
  match s with
  | [] => []
  | c :: s' =>
      if (c =? c_nl)%N then [c] :: readlines s'
      else match readlines s' with
           | [] => [[c]]
           | l :: ls => (c :: l) :: ls
           end
  end.

Fixpoint drop_while (p : char -> bool) (s : str) : str :=
  match s with
  | [] => []
  | c :: s' => if p c then drop_while p s' else s
  end.

(** [s.strip()] *)
Definition strip (s : str) : str :=
  rev (drop_while isspace (rev (drop_while isspace s))).

(** [s.split()]: the maximal runs of characters that are not blanks.
    [split_aux] returns the run that starts the string and the fields
    after it. *)
Definition cons_field (w : str) (fs : list str) : list str :=
  match w with
  | [] => fs
  | _ => w :: fs
  end.

Fixpoint split_aux (s : str) : str * list str :=
  match s with
  | [] => ([], [])
  | c :: s' =>
      let '(w, fs) := split_aux s' in
      if isspace c then ([], cons_field w fs) else (c :: w, fs)
  end.

Definition split (s : str) : list str :=
  let '(w, fs) := split_aux s in cons_field w fs.

(** The first loop of [decode_text]: [char, code = line.strip().split()]
    raises [ValueError] unless there are exactly two fields. *)
Definition load_line (rm : gmap str str) (line : str) : result (gmap str str) :=
  match split (strip line) with
  | [ch; code] => Ok (<[code := ch]> rm)
  | _ => Raise ValueError
  end.

Definition load_codes (rm : gmap str str) (file : str) : result (gmap str str) :=
  fold_left (fun rm line => do rm <- rm; load_line rm line)
    (readlines (universal_newlines file)) (Ok rm).

(** The character a table entry stands for. *)
Definition unescape (character : str) : str :=
  if decide (character = [c_bs; c_n]) then [c_nl]
  else if decide (character = [c_bs; c_s]) then [c_sp]
  else character.

(** The second loop of [decode_text]; the state is
    [(current_code, decoded_text)]. *)
Definition decode_bits (rm : gmap str str) (encoded_text : str) : str * str :=
  fold_left
    (fun '(current_code, decoded_text) bit =>
       let current_code := current_code ++ [bit] in
       match rm !! current_code with
       | Some character => ([], decoded_text ++ unescape character)
       | None => (current_code, decoded_text)
       end)
    encoded_text ([], []).

(** [decode_text]; [codes_file] is the content of the file at
    [input_codes_path], [None] when there is no such file. *)
Definition decode_text (self : HuffmanCoding) (encoded_text : str)
    (codes_file : option str) : result (HuffmanCoding * str) :=
  match codes_file with
  | None => Raise FileNotFoundError
  | Some file =>
      do rm <- load_codes (reverse_mapping self) file;
      let self :=
        mkHuffmanCoding (heap self) (frequency self) (codes self) rm in
      Ok (self, snd (decode_bits rm encoded_text))
  end.

(** ** [compress] and [decompress]

    The files are passed as values: [text] is what [file.read()] returns,
    the bytes written to the [.bin] file and the new content of the table
    file are results. [calculate_metrics] only prints figures computed
    from [self.frequency] and [self.codes]; it changes no state and is
    left out. *)
Definition compress (self : HuffmanCoding) (text : str)
    (codes_file : option str)
    : result (HuffmanCoding * list N * option str) :=
  match text with
  | [] => Ok (self, [c_nl], codes_file)
  | _ =>
      let self := make_frequency_dict self text in
      let self := make_heap self (frequency self) in
      do self <- merge_nodes self;
      do self <- make_codes self;
      do encoded_text <- get_encoded_text self text;
      let padded_encoded_text := pad_encoded_text encoded_text in
      do b <- get_byte_array padded_encoded_text;
      Ok (self, b, Some (output_codes self))
  end.

Definition decompress (self : HuffmanCoding) (bytes : list N)
    (codes_file : option str) : result (HuffmanCoding * str) :=
  let bit_string := bits_of_bytes bytes in
  do encoded_text <- remove_padding bit_string;
  decode_text self encoded_text codes_file.

(** The script at the end of the file: one object compresses, then
    decompresses; the result is the text written to the output file. *)
Definition main (text : str) (codes_file : option str) : result str :=
  let h := new_HuffmanCoding in
  do (h, b, codes_file) <- compress h text codes_file;
  do (_, decompressed_text) <- decompress h b codes_file;
  Ok decompressed_text.

(** A decoder started on its own, as a second run of the program that
    only decompresses would. *)
Definition roundtrip_fresh (text : str) (codes_file : option str)
    : result str :=
  do (_, b, codes_file) <- compress new_HuffmanCoding text codes_file;
  do (_, decompressed_text) <- decompress new_HuffmanCoding b codes_file;
  Ok decompressed_text.

Example main_ex1 : main (str_of "hello world") None = Ok (str_of "hello world").
Proof. vm_compute. reflexivity. Qed.

Example main_ex2 : main (str_of "aaaa") None = Raise ValueError.
Proof. vm_compute. reflexivity. Qed.

Example main_ex3 : main [] None = Raise FileNotFoundError.
Proof. vm_compute. reflexivity. Qed.

Example main_ex4 : main [97; 9; 98]%N None = Raise ValueError.
Proof. vm_compute. reflexivity. Qed.

(** ** The comparisons a run makes

    [a < b] on two items calls [__lt__] of their class and [a == b]
    calls [__eq__], and either call can raise. Below, [heapq] and the
    part of [compress] that works on the heap are embedded once more,
    with every comparison of two items made through the class and
    written to a log, in the order of the calls. *)
Definition logged (A : Type) : Type := list cmp_op * result A.

Definition lret {A} (a : A) : logged A := ([], Ok a).

Definition lift {A} (r : result A) : logged A := ([], r).

Definition lbind {A B} (m : logged A) (k : A -> logged B) : logged B :=
  match m with
  | (calls, Ok a) => let '(calls', r) := k a in (calls ++ calls', r)
  | (calls, Raise e) => (calls, Raise e)
  end.

Declare Scope logged_scope.
Delimit Scope logged_scope with logged.
Notation "'do' x <- r ; k" := (lbind r (fun x => k))
  (at level 10, x pattern, r at level 100, k at level 200) : logged_scope.

Section heapq_cmp.
Context {A : Type} (richcompare : cmp_op -> A -> A -> result bool).

(** [a < b] for [Py_LT], [a == b] for [Py_EQ] *)
Definition compare (op : cmp_op) (a b : A) : logged bool :=
  ([op], richcompare op a b).

Fixpoint _siftdown_loop_cmp (fuel : nat) (heap : list A) (newitem : A)
    (startpos pos : nat) : logged (list A * nat) :=
  match fuel with
  | 0 => lret (heap, pos)
  | S fuel =>
      if startpos <? pos then
        let parentpos := (pos - 1) / 2 in
        match heap !! parentpos with
        | Some parent =>
            (do b <- compare Py_LT newitem parent;
             if b
             then _siftdown_loop_cmp fuel (<[pos:=parent]> heap) newitem
                    startpos parentpos
             else lret (heap, pos))%logged
        | None => lret (heap, pos)
        end
      else lret (heap, pos)
  end.

Definition _siftdown_cmp (heap : list A) (startpos pos : nat)
    : logged (list A) :=
  match heap !! pos with
  | Some newitem =>
      (do (heap, pos) <- _siftdown_loop_cmp pos heap newitem startpos pos;
       lret (<[pos:=newitem]> heap))%logged
  | None => lret heap
  end.

(** [heap[i] < heap[j]] *)
Definition lt_at_cmp (heap : list A) (i j : nat) : logged bool :=
  match heap !! i, heap !! j with
  | Some a, Some b => compare Py_LT a b
  | _, _ => lret false
  end.

Fixpoint _siftup_loop_cmp (fuel : nat) (heap : list A) (endpos pos : nat)
    : logged (list A * nat) :=
  match fuel with
  | 0 => lret (heap, pos)
  | S fuel =>
      let childpos := 2 * pos + 1 in
      if childpos <? endpos then
        let rightpos := childpos + 1 in
        (do childpos <-
           (if rightpos <? endpos then
              do b <- lt_at_cmp heap childpos rightpos;
              lret (if negb b then rightpos else childpos)
            else lret childpos);
         match heap !! childpos with
         | Some child =>
             _siftup_loop_cmp fuel (<[pos:=child]> heap) endpos childpos
         | None => lret (heap, pos)
         end)%logged
      else lret (heap, pos)
  end.

Definition _siftup_cmp (heap : list A) (pos : nat) : logged (list A) :=
  let endpos := length heap in
  let startpos := pos in
  match heap !! pos with
  | Some newitem =>
      (do (heap, pos) <- _siftup_loop_cmp (endpos - pos) heap endpos pos;
       _siftdown_cmp (<[pos:=newitem]> heap) startpos pos)%logged
  | None => lret heap
  end.

Definition heappush_cmp (heap : list A) (item : A) : logged (list A) :=
  let heap := heap ++ [item] in
  _siftdown_cmp heap 0 (length heap - 1).

Definition heappop_cmp (heap : list A) : logged (A * list A) :=
  match last heap with
  | None => lift (Raise IndexError)
  | Some lastelt =>
      let heap := removelast heap in
      match heap with
      | [] => lret (lastelt, [])
      | returnitem :: _ =>
          (do heap <- _siftup_cmp (<[0:=lastelt]> heap) 0;
           lret (returnitem, heap))%logged
      end
  end.
End heapq_cmp.

Section compress_cmp.
Context (richcompare : cmp_op -> HeapNode -> HeapNode -> result bool).

Definition make_heap_cmp (self : HuffmanCoding) (freq : list (char * Z))
    : logged HuffmanCoding :=
  fold_left
    (fun self '(key, f) =>
       (do self <- self;
        let node := new_HeapNode (Some key) f in
        do h <- heappush_cmp richcompare (heap self) node;
        lret (mkHuffmanCoding h (frequency self) (codes self)
                (reverse_mapping self)))%logged)
    freq (lret self).

Definition merge_step_cmp (heap : list HeapNode) : logged (list HeapNode) :=
  (do (node1, heap) <- heappop_cmp richcompare heap;
   do (node2, heap) <- heappop_cmp richcompare heap;
   let merged :=
     Node None (node_freq node1 + node_freq node2) (Some node1) (Some node2) in
   heappush_cmp richcompare heap merged)%logged.

Fixpoint merge_nodes_loop_cmp (fuel : nat) (heap : list HeapNode)
    : logged (list HeapNode) :=
  match fuel with
  | 0 => lret heap
  | S fuel =>
      if 1 <? length heap then
        (do heap <- merge_step_cmp heap;
         merge_nodes_loop_cmp fuel heap)%logged
      else lret heap
  end.

Definition merge_nodes_cmp (self : HuffmanCoding) : logged HuffmanCoding :=
  (do h <- merge_nodes_loop_cmp (length (heap self) - 1) (heap self);
   lret (mkHuffmanCoding h (frequency self) (codes self)
           (reverse_mapping self)))%logged.

Definition make_codes_cmp (self : HuffmanCoding) : logged HuffmanCoding :=
  (do (root, h) <- heappop_cmp richcompare (heap self);
   let self :=
     mkHuffmanCoding h (frequency self) (codes self) (reverse_mapping self) in
   let current_code := [] in
   lret (make_codes_helper self root current_code))%logged.

Definition compress_cmp (self : HuffmanCoding) (text : str)
    (codes_file : option str)
    : logged (HuffmanCoding * list N * option str) :=
  match text with
  | [] => lret (self, [c_nl], codes_file)
  | _ =>
      let self := make_frequency_dict self text in
      (do self <- make_heap_cmp self (frequency self);
       do self <- merge_nodes_cmp self;
       do self <- make_codes_cmp self;
       do encoded_text <- lift (get_encoded_text self text);
       let padded_encoded_text := pad_encoded_text encoded_text in
       do b <- lift (get_byte_array padded_encoded_text);
       lret (self, b, Some (output_codes self)))%logged
  end.
End compress_cmp.

Example compress_cmp_ex :
  compress_cmp HeapNode_richcompare new_HuffmanCoding (str_of "abb") None
  = ([Py_LT],
     compress new_HuffmanCoding (str_of "abb") None) /\
  fst (compress_cmp HeapNode_richcompare new_HuffmanCoding
         (str_of "abracadabra") None)
  = repeat Py_LT 18.
Proof. split; vm_compute; reflexivity. Qed.

Example compare_eq_ex :
  compare HeapNode_richcompare Py_EQ
    (new_HeapNode (Some 97%N) 1) (new_HeapNode (Some 97%N) 1)
  = ([Py_EQ], Raise AttributeError).
Proof. reflexivity. Qed.

(** * Properties *)

(** ** Bit strings, padding and packing *)

Definition is_bit (c : char) : Prop := c = c0 \/ c = c1.

Lemma is_bit_cases (c : char) (P : char -> Prop) :
  is_bit c -> P c0 -> P c1 -> P c.
Proof. intros [-> | ->]; auto. Qed.

Ltac solve_bits :=
  cbv - [is_bit];
  repeat match goal with
    | |- Forall _ [] => constructor
    | |- Forall _ (_ :: _) =>
        constructor; [first [left; reflexivity | right; reflexivity]|]
    end.

Lemma int2_acc_bits (s : str) : forall acc,
  Forall is_bit s -> exists v, int2_acc acc s = Ok v.
Proof.
  induction s as [|c s IH]; intros acc Hs; simpl.
  - eauto.
  - inversion Hs as [|? ? Hc Hs']; subst.
    destruct Hc as [-> | ->]; simpl; apply IH; assumption.
Qed.

Lemma format_08b_length (p : nat) :
  1 <= p <= 8 -> length (format_08b (N.of_nat p)) = 8.
Proof.
  intros Hp.
  assert (Hc : p = 1 \/ p = 2 \/ p = 3 \/ p = 4 \/ p = 5 \/ p = 6 \/ p = 7 \/ p = 8)
    by lia.
  repeat (destruct Hc as [-> | Hc]; [reflexivity|]). subst; reflexivity.
Qed.

Lemma format_08b_int2 (p : nat) :
  1 <= p <= 8 -> int2 (format_08b (N.of_nat p)) = Ok (N.of_nat p).
Proof.
  intros Hp.
  assert (Hc : p = 1 \/ p = 2 \/ p = 3 \/ p = 4 \/ p = 5 \/ p = 6 \/ p = 7 \/ p = 8)
    by lia.
  repeat (destruct Hc as [-> | Hc]; [reflexivity|]). subst; reflexivity.
Qed.

Lemma extra_padding_range (n : nat) : 1 <= 8 - n mod 8 <= 8.
Proof. pose proof (Nat.mod_upper_bound n 8). lia. Qed.

Lemma pad_encoded_text_length (s : str) :
  length (pad_encoded_text s) = 8 + length s + (8 - length s mod 8).
Proof.
  unfold pad_encoded_text.
  rewrite !length_app, repeat_length, format_08b_length
    by apply extra_padding_range.
  lia.
Qed.

Lemma pad_encoded_text_mod8 (s : str) : length (pad_encoded_text s) mod 8 = 0.
Proof.
  rewrite pad_encoded_text_length.
  pose proof (Nat.div_mod_eq (length s) 8) as Hd.
  pose proof (Nat.mod_upper_bound (length s) 8) as Hm.
  replace (8 + length s + (8 - length s mod 8))
    with ((length s / 8 + 2) * 8) by lia.
  apply Nat.Div0.mod_mul.
Qed.

Lemma int2_acc_not_exit (s : str) : forall acc,
  int2_acc acc s <> Raise SystemExit.
Proof.
  induction s as [|c s IH]; intros acc; simpl; [discriminate|].
  destruct (c =? c0)%N; [apply IH|]. destruct (c =? c1)%N; [apply IH|].
  discriminate.
Qed.

Lemma int2_not_exit (s : str) : int2 s <> Raise SystemExit.
Proof.
  destruct s; simpl; [discriminate|]. apply (int2_acc_not_exit (_ :: _)).
Qed.

(** The loop of [get_byte_array] raises nothing but [ValueError]. *)
Lemma byte_loop_not_exit (s : str) (idx : list nat) : forall acc,
  acc <> Raise SystemExit ->
  fold_left
    (fun b i =>
       do b <- b; do v <- int2 (slice s i (i + 8)); bytearray_append b v)
    idx acc <> Raise SystemExit.
Proof.
  induction idx as [|i idx IH]; intros acc Hacc; simpl; [assumption|].
  apply IH. destruct acc as [b|e]; simpl; [|assumption].
  destruct (int2 (slice s i (i + 8))) as [v|e] eqn:Hv; simpl.
  - unfold bytearray_append. destruct (v <? 256)%N; discriminate.
  - intros Heq. injection Heq as ->. revert Hv. apply int2_not_exit.
Qed.

(** [C3] [pad_encoded_text] appends [8 - len mod 8] zero bits, a number
    between 1 and 8 and never 0, behind the encoded text and the 8-bit
    header in front of it; the length of the result is a multiple of 8, so
    [get_byte_array] never takes its exit branch on it. *)
Theorem pad_encoded_text_aligned (s : str) :
  let extra_padding := 8 - length s mod 8 in
  1 <= extra_padding <= 8 /\
  pad_encoded_text s
    = format_08b (N.of_nat extra_padding) ++ s ++ repeat c0 extra_padding /\
  length (format_08b (N.of_nat extra_padding)) = 8 /\
  length (pad_encoded_text s) mod 8 = 0 /\
  get_byte_array (pad_encoded_text s) <> Raise SystemExit.
Proof.
  intros extra_padding. split; [apply extra_padding_range|].
  split; [reflexivity|].
  split; [apply format_08b_length, extra_padding_range|].
  split; [apply pad_encoded_text_mod8|].
  unfold get_byte_array. rewrite pad_encoded_text_mod8. simpl negb. cbv iota.
  apply byte_loop_not_exit. discriminate.
Qed.

Lemma int2_bits (s : str) :
  s <> [] -> Forall is_bit s -> exists v, int2 s = Ok v.
Proof.
  intros Hne Hs. destruct s as [|c s]; [congruence|].
  apply (int2_acc_bits (c :: s)). assumption.
Qed.

Lemma drop_last_spec (k : nat) (s : str) :
  drop_last k s
  = if (k =? 0) || (length s <? k) then [] else firstn (length s - k) s.
Proof.
  destruct k as [|k]; [reflexivity|]. simpl orb. unfold drop_last.
  destruct (length s <? S k) eqn:Hlt; [|reflexivity].
  apply Nat.ltb_lt in Hlt. replace (length s - S k) with 0 by lia. reflexivity.
Qed.

(** [C5], as the program has it: [remove_padding] validates nothing. For
    every header of eight binary digits it returns normally; a header
    value of 0 or one larger than the number of remaining bits returns
    the empty string, any other value [p] returns the payload without its
    last [p] bits. *)
Theorem remove_padding_never_fails (hdr payload : str) :
  length hdr = 8 -> Forall is_bit hdr ->
  exists p : N,
    int2 hdr = Ok p /\
    remove_padding (hdr ++ payload)
    = Ok (if (N.to_nat p =? 0) || (length payload <? N.to_nat p) then []
          else firstn (length payload - N.to_nat p) payload).
Proof.
  intros Hlen Hbits.
  destruct (int2_bits hdr) as [p Hp]; [intros ->; discriminate|assumption|].
  exists p. split; [assumption|].
  unfold remove_padding.
  rewrite firstn_app, <- Hlen, firstn_all, Nat.sub_diag, firstn_O, app_nil_r.
  rewrite Hp. simpl bind.
  rewrite skipn_app, skipn_all, Nat.sub_diag. simpl.
  rewrite drop_last_spec. reflexivity.
Qed.

Lemma remove_padding_never_fails_witness :
  exists p : N,
    int2 (str_of "00000011") = Ok p /\
    remove_padding (str_of "00000011" ++ str_of "10110000")
    = Ok (if (N.to_nat p =? 0) || (length (str_of "10110000") <? N.to_nat p)
          then []
          else firstn (length (str_of "10110000") - N.to_nat p)
                 (str_of "10110000")).
Proof.
  apply (remove_padding_never_fails (str_of "00000011") (str_of "10110000")).
  - reflexivity.
  - solve_bits.
Defined.

(** A header of 0 and a header of 255 in front of eight payload bits:
    no error is reported, the payload is dropped. *)
Lemma remove_padding_silent_truncation :
  remove_padding (str_of "0000000010110000") = Ok [] /\
  remove_padding (str_of "1111111110110000") = Ok [].
Proof. split; reflexivity. Qed.

(** ** The heap invariant of [heapq] *)

Lemma parent_lt (i : nat) : 0 < i -> (i - 1) / 2 < i.
Proof.
  intros Hi. pose proof (Nat.div_mod_eq (i - 1) 2).
  pose proof (Nat.mod_upper_bound (i - 1) 2). lia.
Qed.

Lemma parent_children (i p : nat) :
  0 < i -> ((i - 1) / 2 = p <-> i = 2 * p + 1 \/ i = 2 * p + 2).
Proof.
  intros Hi. pose proof (Nat.div_mod_eq (i - 1) 2).
  pose proof (Nat.mod_upper_bound (i - 1) 2).
  split.
  - intros <-. lia.
  - intros [-> | ->].
    + replace (2 * p + 1 - 1) with (p * 2) by lia. apply Nat.div_mul. lia.
    + replace (2 * p + 2 - 1) with (1 + p * 2) by lia.
      rewrite Nat.div_add by lia. reflexivity.
Qed.

Lemma insert_cons_Permutation {A} (l : list A) (i : nat) (x y : A) :
  l !! i = Some y -> x :: l ≡ₚ y :: <[i:=x]> l.
Proof.
  revert i. induction l as [|a l IH]; intros [|i] Hi; simpl in *;
    try discriminate.
  - injection Hi as ->. apply perm_swap.
  - rewrite perm_swap, (IH i Hi). apply perm_swap.
Qed.

(** Moving the item at [q] into the hole at [p] and the pending item into
    [q] permutes the list. *)
Lemma hole_move_Permutation {A} (h : list A) (p q : nat) (x y : A) :
  p <> q -> p < length h -> h !! q = Some y ->
  <[q:=x]> (<[p:=y]> h) ≡ₚ <[p:=x]> h.
Proof.
  intros Hpq Hp Hq.
  destruct (lookup_lt_is_Some_2 h p Hp) as [z Hz].
  assert (H1 : x :: h ≡ₚ z :: <[p:=x]> h) by (apply insert_cons_Permutation; exact Hz).
  assert (H2 : y :: h ≡ₚ z :: <[p:=y]> h) by (apply insert_cons_Permutation; exact Hz).
  assert (H3 : x :: <[p:=y]> h ≡ₚ y :: <[q:=x]> (<[p:=y]> h)).
  { apply insert_cons_Permutation. rewrite list_lookup_insert_ne; assumption. }
  apply (Permutation_cons_inv (a := y)), (Permutation_cons_inv (a := z)).
  rewrite <- H3, (perm_swap x z), <- H2, (perm_swap y x), H1.
  apply perm_swap.
Qed.

Section heap_invariant.
Context {A : Type} (lt : A -> A -> bool).
Hypothesis lt_asym : forall x y, lt x y = true -> lt y x = false.
Hypothesis le_trans :
  forall x y z, lt y x = false -> lt z y = false -> lt z x = false.

(** The item at [i] is not above the item at [j]: [not (h[j] < h[i])]. *)
Definition ordered_at (h : list A) (i j : nat) : Prop :=
  forall x y, h !! i = Some x -> h !! j = Some y -> lt y x = false.

(** The invariant the module documents: [heap[k] <= heap[2*k+1]] and
    [heap[k] <= heap[2*k+2]], stated from the child's side. *)
Definition is_heap (h : list A) : Prop :=
  forall i, 0 < i -> ordered_at h ((i - 1) / 2) i.

(** A heap with a hole at [p]: the order holds wherever [p] is not
    involved, and the children of [p] are not below the parent of [p]. *)
Definition hole_ok (h : list A) (p : nat) : Prop :=
  (forall i, 0 < i -> i <> p -> (i - 1) / 2 <> p ->
     ordered_at h ((i - 1) / 2) i) /\
  (0 < p -> forall i, 0 < i -> (i - 1) / 2 = p ->
     ordered_at h ((p - 1) / 2) i).

(** The children of [p] are not below [x]. *)
Definition above (x : A) (h : list A) (p : nat) : Prop :=
  forall i y, 0 < i -> (i - 1) / 2 = p -> h !! i = Some y -> lt y x = false.

Lemma fill_hole (h : list A) (p : nat) (x : A) :
  p < length h -> hole_ok h p -> above x h p ->
  (0 < p -> forall y, h !! ((p - 1) / 2) = Some y -> lt x y = false) ->
  is_heap (<[p:=x]> h).
Proof.
  intros Hp [Ha Hb] Hc Hup i Hi a b Ha' Hb'.
  pose proof (parent_lt i Hi) as Hlt.
  destruct (decide (i = p)) as [-> | Hip].
  - rewrite list_lookup_insert_eq in Hb' by assumption. injection Hb' as <-.
    rewrite list_lookup_insert_ne in Ha' by lia. eauto.
  - rewrite list_lookup_insert_ne in Hb' by congruence.
    destruct (decide ((i - 1) / 2 = p)) as [Hpar | Hpar].
    + rewrite Hpar, list_lookup_insert_eq in Ha' by assumption.
      injection Ha' as <-. eapply Hc; eauto.
    + rewrite list_lookup_insert_ne in Ha' by congruence.
      eapply Ha; eauto.
Qed.

Lemma is_heap_hole_ok (h : list A) (p : nat) : is_heap h -> hole_ok h p.
Proof.
  intros Hh. split.
  - intros i Hi _ _. apply Hh, Hi.
  - intros Hp i Hi Hpar a b Ha Hb.
    destruct (lookup_lt_is_Some_2 h p) as [c Hc].
    { apply lookup_lt_Some in Hb. pose proof (parent_lt i Hi). lia. }
    eapply le_trans.
    + eapply (Hh p Hp); eauto.
    + apply (Hh i Hi); [rewrite Hpar|]; eauto.
Qed.

Lemma hole_ok_insert (h : list A) (p : nat) (x : A) :
  hole_ok h p -> hole_ok (<[p:=x]> h) p.
Proof.
  intros [Ha Hb]. split.
  - intros i Hi Hip Hpar a b Ha' Hb'.
    rewrite list_lookup_insert_ne in Ha' by congruence.
    rewrite list_lookup_insert_ne in Hb' by congruence.
    eapply Ha; eauto.
  - intros Hp i Hi Hpar a b Ha' Hb'.
    pose proof (parent_lt i Hi). pose proof (parent_lt p Hp).
    rewrite list_lookup_insert_ne in Ha' by lia.
    rewrite list_lookup_insert_ne in Hb' by lia.
    eapply Hb; eauto.
Qed.
Lemma lt_irrefl (x : A) : lt x x = false.
Proof. destruct (lt x x) eqn:E; [apply lt_asym in E as E'; congruence|reflexivity]. Qed.

Lemma siftdown_loop_spec (fuel : nat) : forall (h : list A) (x : A) (p : nat),
  p <= fuel -> p < length h -> hole_ok h p -> above x h p ->
  is_heap (<[(_siftdown_loop lt fuel h x 0 p).2 := x]>
             (_siftdown_loop lt fuel h x 0 p).1) /\
  <[(_siftdown_loop lt fuel h x 0 p).2 := x]>
    (_siftdown_loop lt fuel h x 0 p).1 ≡ₚ <[p:=x]> h.
Proof.
  induction fuel as [|fuel IH]; intros h x p Hfuel Hp Hok Hab.
  - simpl. split; [|reflexivity].
    apply fill_hole; auto. intros; lia.
  - cbn [_siftdown_loop]. destruct (0 <? p) eqn:Hpos; cbn [fst snd].
    2:{ split; [|reflexivity]. apply Nat.ltb_ge in Hpos.
        apply fill_hole; auto. intros; lia. }
    apply Nat.ltb_lt in Hpos. pose proof (parent_lt p Hpos) as Hpar.
    destruct (lookup_lt_is_Some_2 h ((p - 1) / 2)) as [y Hy]; [lia|].
    rewrite Hy. destruct (lt x y) eqn:Hxy; cbn [fst snd].
    2:{ split; [|reflexivity]. apply fill_hole; auto.
        intros _ y' Hy'. congruence. }
    destruct (IH (<[p:=y]> h) x ((p - 1) / 2)) as [Hheap Hperm].
    + lia.
    + rewrite length_insert. lia.
    + destruct Hok as [Ha Hb]. split.
      * intros i Hi Hne Hpne a b Hla Hlb.
        destruct (decide (i = p)) as [-> | Hip]; [congruence|].
        rewrite list_lookup_insert_ne in Hlb by congruence.
        destruct (decide ((i - 1) / 2 = p)) as [Hc | Hc].
        -- rewrite Hc, list_lookup_insert_eq in Hla by assumption.
           injection Hla as <-. eapply (Hb Hpos i); eauto.
        -- rewrite list_lookup_insert_ne in Hla by congruence.
           eapply Ha; eauto.
      * intros Hq i Hi Hc a b Hla Hlb.
        pose proof (parent_lt _ Hq) as Hq'.
        rewrite list_lookup_insert_ne in Hla by lia.
        assert (Hay : lt y a = false).
        { eapply (Ha ((p - 1) / 2)); eauto; lia. }
        destruct (decide (i = p)) as [-> | Hip].
        -- rewrite list_lookup_insert_eq in Hlb by assumption.
           injection Hlb as <-. exact Hay.
        -- rewrite list_lookup_insert_ne in Hlb by congruence.
           eapply le_trans; [exact Hay|].
           eapply (Ha i); eauto; [lia|]. rewrite Hc. exact Hy.
    + intros i b Hi Hc Hlb.
      destruct (decide (i = p)) as [-> | Hip].
      * rewrite list_lookup_insert_eq in Hlb by assumption.
        injection Hlb as <-. apply lt_asym, Hxy.
      * rewrite list_lookup_insert_ne in Hlb by congruence.
        eapply le_trans; [apply lt_asym, Hxy|].
        destruct Hok as [Ha _]. eapply (Ha i); eauto; [lia|].
        rewrite Hc. exact Hy.
    + split; [exact Hheap|]. rewrite Hperm.
      apply hole_move_Permutation; [lia|assumption|assumption].
Qed.

Lemma siftdown_spec (h : list A) (p : nat) (x : A) :
  h !! p = Some x -> hole_ok h p -> above x h p ->
  is_heap (_siftdown lt h 0 p) /\ _siftdown lt h 0 p ≡ₚ h.
Proof.
  intros Hx Hok Hab. unfold _siftdown. rewrite Hx.
  pose proof (lookup_lt_Some _ _ _ Hx) as Hp.
  destruct (siftdown_loop_spec p h x p) as [Hheap Hperm]; auto.
  destruct (_siftdown_loop lt p h x 0 p) as [h' p'] eqn:E. simpl in *.
  split; [exact Hheap|]. rewrite Hperm, list_insert_id; auto.
Qed.

Lemma heappush_spec (h : list A) (x : A) :
  is_heap h -> is_heap (heappush lt h x) /\ heappush lt h x ≡ₚ x :: h.
Proof.
  intros Hh. unfold heappush.
  replace (length (h ++ [x]) - 1) with (length h)
    by (rewrite length_app; simpl; lia).
  destruct (siftdown_spec (h ++ [x]) (length h) x) as [Hheap Hperm].
  - apply list_lookup_middle. reflexivity.
  - split.
    + intros i Hi Hne Hpne a b Hla Hlb.
      apply lookup_lt_Some in Hlb as Hlen. rewrite length_app in Hlen.
      simpl in Hlen. pose proof (parent_lt i Hi).
      rewrite lookup_app_l in Hla by lia. rewrite lookup_app_l in Hlb by lia.
      eapply Hh; eauto.
    + intros Hp i Hi Hc a b Hla Hlb.
      apply lookup_lt_Some in Hlb as Hlen. rewrite length_app in Hlen.
      simpl in Hlen. apply parent_children in Hc; lia.
  - intros i b Hi Hc Hlb.
    apply lookup_lt_Some in Hlb as Hlen. rewrite length_app in Hlen.
    simpl in Hlen. apply parent_children in Hc; lia.
  - split; [exact Hheap|]. rewrite Hperm.
    symmetry. apply Permutation_cons_append.
Qed.
(** The child [_siftup] moves up is not above its sibling. *)
Lemma smaller_child (h : list A) (p : nat) :
  2 * p + 1 < length h ->
  let c := if (2 * p + 1 + 1 <? length h)
              && negb (lt_at lt h (2 * p + 1) (2 * p + 1 + 1))
           then 2 * p + 1 + 1 else 2 * p + 1 in
  (c = 2 * p + 1 \/ c = 2 * p + 2) /\ c < length h /\
  forall s a b, s = 2 * p + 1 \/ s = 2 * p + 2 ->
    h !! c = Some a -> h !! s = Some b -> lt b a = false.
Proof.
  intros Hl c. subst c.
  destruct (2 * p + 1 + 1 <? length h) eqn:Hr; cbn [andb negb].
  - apply Nat.ltb_lt in Hr.
    destruct (lookup_lt_is_Some_2 h (2 * p + 1) Hl) as [vl Hvl].
    destruct (lookup_lt_is_Some_2 h (2 * p + 1 + 1) Hr) as [vr Hvr].
    unfold lt_at. rewrite Hvl, Hvr.
    destruct (lt vl vr) eqn:Hlr; cbn [andb negb].
    + split; [auto|]. split; [assumption|].
      intros s a b [-> | ->] Ha Hb.
      * rewrite Hvl in *. simplify_eq. apply lt_irrefl.
      * replace (2 * p + 2) with (2 * p + 1 + 1) in Hb by lia.
        simplify_eq. apply lt_asym, Hlr.
    + split; [right; lia|]. split; [assumption|].
      intros s a b [-> | ->] Ha Hb.
      * simplify_eq. exact Hlr.
      * replace (2 * p + 2) with (2 * p + 1 + 1) in Hb by lia.
        simplify_eq. apply lt_irrefl.
  - apply Nat.ltb_ge in Hr. split; [auto|]. split; [assumption|].
    intros s a b [-> | ->] Ha Hb.
    + simplify_eq. apply lt_irrefl.
    + apply lookup_lt_Some in Hb. lia.
Qed.

Lemma siftup_loop_spec (x : A) (fuel : nat) : forall (h : list A) (p : nat),
  length h - p <= fuel -> p < length h -> hole_ok h p ->
  let r := _siftup_loop lt fuel h (length h) p in
  length r.1 = length h /\ r.2 < length h /\ length h <= 2 * r.2 + 1 /\
  hole_ok r.1 r.2 /\ <[r.2:=x]> r.1 ≡ₚ <[p:=x]> h.
Proof.
  induction fuel as [|fuel IH]; intros h p Hfuel Hp Hok; [lia|].
  cbn [_siftup_loop]. cbv zeta.
  destruct (2 * p + 1 <? length h) eqn:Hleaf; cbn [fst snd].
  2:{ apply Nat.ltb_ge in Hleaf. repeat split; auto; apply Hok. }
  apply Nat.ltb_lt in Hleaf.
  destruct (smaller_child h p Hleaf) as (Hc & Hclt & Hmin).
  set (c := if (2 * p + 1 + 1 <? length h)
               && negb (lt_at lt h (2 * p + 1) (2 * p + 1 + 1))
            then 2 * p + 1 + 1 else 2 * p + 1) in *.
  destruct (lookup_lt_is_Some_2 h c Hclt) as [y Hy]. rewrite Hy.
  assert (Hlen : length (<[p:=y]> h) = length h) by apply length_insert.
  specialize (IH (<[p:=y]> h) c). rewrite Hlen in IH.
  destruct IH as (H1 & H2 & H3 & H4 & H5); [lia|lia| |].
  - destruct Hok as [Ha Hb]. split.
    + intros i Hi Hne Hpne a b Hla Hlb.
      destruct (decide (i = p)) as [-> | Hip].
      * rewrite list_lookup_insert_eq in Hlb by assumption.
        injection Hlb as <-.
        pose proof (parent_lt p Hi).
        rewrite list_lookup_insert_ne in Hla by lia.
        eapply (Hb Hi c); eauto; [lia|]. apply parent_children; lia.
      * rewrite list_lookup_insert_ne in Hlb by congruence.
        destruct (decide ((i - 1) / 2 = p)) as [Hpar | Hpar].
        -- rewrite Hpar, list_lookup_insert_eq in Hla by assumption.
           injection Hla as <-. apply parent_children in Hpar; [|assumption].
           eapply Hmin; eauto.
        -- rewrite list_lookup_insert_ne in Hla by congruence.
           eapply Ha; eauto.
    + intros Hcpos i Hi Hpar a b Hla Hlb.
      assert (Hcp : (c - 1) / 2 = p) by (apply parent_children; lia).
      rewrite Hcp, list_lookup_insert_eq in Hla by assumption.
      injection Hla as <-.
      assert (i <> p).
      { pose proof (parent_lt i Hi). pose proof (parent_lt c Hcpos). lia. }
      rewrite list_lookup_insert_ne in Hlb by congruence.
      eapply (Ha i); eauto; [lia|]. rewrite Hpar. exact Hy.
  - split; [exact H1|]. split; [exact H2|]. split; [exact H3|].
    split; [exact H4|].
    rewrite H5. apply hole_move_Permutation; [lia|assumption|assumption].
Qed.

Lemma is_heap_app_l (h k : list A) : is_heap (h ++ k) -> is_heap h.
Proof.
  intros Hh i Hi a b Ha Hb.
  eapply (Hh i Hi); apply lookup_app_l_Some; eassumption.
Qed.

Lemma heappop_spec (h : list A) :
  is_heap h -> h <> [] ->
  exists x h', heappop lt h = Ok (x, h') /\ h !! 0 = Some x /\
    is_heap h' /\ h ≡ₚ x :: h'.
Proof.
  intros Hh Hne. unfold heappop.
  destruct (last h) as [lastelt|] eqn:Hlast;
    [|apply last_None in Hlast; contradiction].
  apply last_Some in Hlast as [l' ->]. rewrite removelast_last.
  destruct l' as [|r t].
  - exists lastelt, []. repeat split; auto. intros i Hi a b _ Hb. discriminate.
  - exists r, (_siftup lt (<[0:=lastelt]> (r :: t)) 0).
    split; [reflexivity|]. split; [reflexivity|].
    unfold _siftup. cbn [insert list_insert lookup list_lookup].
    rewrite Nat.sub_0_r.
    assert (Hok : hole_ok (lastelt :: t) 0).
    { apply (hole_ok_insert (r :: t) 0 lastelt), is_heap_hole_ok.
      eapply is_heap_app_l, Hh. }
    destruct (siftup_loop_spec lastelt (length (lastelt :: t)) (lastelt :: t) 0)
      as (H1 & H2 & H3 & H4 & H5); [lia|simpl; lia|exact Hok|].
    destruct (_siftup_loop lt (length (lastelt :: t)) (lastelt :: t)
                (length (lastelt :: t)) 0) as [h' p'] eqn:E.
    cbn [fst snd] in *.
    destruct (siftdown_spec (<[p':=lastelt]> h') p' lastelt) as [Hheap Hperm].
    + apply list_lookup_insert_eq. lia.
    + apply hole_ok_insert, H4.
    + intros i b Hi Hc Hlb. apply lookup_lt_Some in Hlb.
      rewrite length_insert in Hlb. apply parent_children in Hc; lia.
    + split; [exact Hheap|]. rewrite Hperm, H5. simpl.
      apply perm_skip. symmetry. apply Permutation_cons_append.
Qed.

Lemma heap_root_minimal (h : list A) (r : A) :
  is_heap h -> h !! 0 = Some r ->
  forall i y, h !! i = Some y -> lt y r = false.
Proof.
  intros Hh Hr i. induction i as [i IH] using lt_wf_ind. intros y Hy.
  destruct (decide (i = 0)) as [-> | Hi].
  - rewrite Hr in Hy. injection Hy as <-. apply lt_irrefl.
  - assert (Hpos : 0 < i) by lia. pose proof (parent_lt i Hpos) as Hpar.
    destruct (lookup_lt_is_Some_2 h ((i - 1) / 2)) as [z Hz].
    { apply lookup_lt_Some in Hy. lia. }
    eapply le_trans; [eapply IH; eauto|]. eapply (Hh i); eauto.
Qed.
End heap_invariant.

(** ** Tree building *)

Lemma HeapNode_lt_asym (x y : HeapNode) :
  HeapNode_lt x y = true -> HeapNode_lt y x = false.
Proof. unfold HeapNode_lt. lia. Qed.

Lemma HeapNode_le_trans (x y z : HeapNode) :
  HeapNode_lt y x = false -> HeapNode_lt z y = false -> HeapNode_lt z x = false.
Proof. unfold HeapNode_lt. lia. Qed.

Lemma HeapNode_le (x y : HeapNode) :
  HeapNode_lt y x = false <-> (node_freq x <= node_freq y)%Z.
Proof. unfold HeapNode_lt. lia. Qed.

(** The nodes [make_heap] creates and the node [merge_nodes] creates. *)
Definition leaf (kv : char * Z) : HeapNode := new_HeapNode (Some kv.1) kv.2.

Definition merged (node1 node2 : HeapNode) : HeapNode :=
  Node None (node_freq node1 + node_freq node2) (Some node1) (Some node2).

(** The shape of the trees of the program: a leaf carries a symbol and has
    no children, an internal node carries none and has two. *)
Inductive wf_tree : HeapNode -> Prop :=
| wf_leaf c f : wf_tree (Node (Some c) f None None)
| wf_node f l r :
    wf_tree l -> wf_tree r -> wf_tree (Node None f (Some l) (Some r)).

(** The symbols of a tree with their weights, in the order of the
    depth-first walk. *)
Fixpoint leaf_items (n : HeapNode) : list (char * Z) :=
  match n with
  | Node ch f l r =>
      match ch with Some c => [(c, f)] | None => [] end
      ++ match l with Some l => leaf_items l | None => [] end
      ++ match r with Some r => leaf_items r | None => [] end
  end.

Definition sum_freq (items : list (char * Z)) : Z :=
  fold_right (fun kv acc => (kv.2 + acc)%Z) 0%Z items.

(** What the loop of [merge_nodes] keeps true of the heap. *)
Record forest_ok (items : list (char * Z)) (h : list HeapNode) : Prop := {
  forest_heap : is_heap HeapNode_lt h;
  forest_wf : Forall wf_tree h;
  forest_weight : Forall (fun n => node_freq n = sum_freq (leaf_items n)) h;
  forest_items : concat (map leaf_items h) ≡ₚ items
}.

Lemma sum_freq_app (a b : list (char * Z)) :
  sum_freq (a ++ b) = (sum_freq a + sum_freq b)%Z.
Proof. induction a as [|x a IH]; simpl; lia. Qed.

Lemma sum_freq_Permutation (a b : list (char * Z)) :
  a ≡ₚ b -> sum_freq a = sum_freq b.
Proof. induction 1; simpl; lia. Qed.

Lemma push_spec (h : list HeapNode) (x : HeapNode) :
  is_heap HeapNode_lt h ->
  is_heap HeapNode_lt (heappush HeapNode_lt h x) /\
  heappush HeapNode_lt h x ≡ₚ x :: h.
Proof.
  apply heappush_spec; [apply HeapNode_lt_asym|apply HeapNode_le_trans].
Qed.

Lemma pop_spec (h : list HeapNode) :
  is_heap HeapNode_lt h -> h <> [] ->
  exists x h', heappop HeapNode_lt h = Ok (x, h') /\
    is_heap HeapNode_lt h' /\ h ≡ₚ x :: h' /\
    forall y, y ∈ h -> (node_freq x <= node_freq y)%Z.
Proof.
  intros Hh Hne.
  destruct (heappop_spec HeapNode_lt HeapNode_lt_asym HeapNode_le_trans h Hh Hne)
    as (x & h' & Hpop & Hroot & Hh' & Hperm).
  exists x, h'. split; [exact Hpop|]. split; [exact Hh'|].
  split; [exact Hperm|].
  intros y [i Hi]%list_elem_of_lookup. apply HeapNode_le.
  exact (heap_root_minimal HeapNode_lt HeapNode_lt_asym HeapNode_le_trans
           h x Hh Hroot i y Hi).
Qed.

Lemma make_heap_cons (self : HuffmanCoding) (k : char) (f : Z)
    (freq : list (char * Z)) :
  make_heap self ((k, f) :: freq)
  = make_heap
      (mkHuffmanCoding
         (heappush HeapNode_lt (heap self) (new_HeapNode (Some k) f))
         (frequency self) (codes self) (reverse_mapping self)) freq.
Proof. reflexivity. Qed.

Lemma make_heap_fields (freq : list (char * Z)) : forall self,
  frequency (make_heap self freq) = frequency self /\
  codes (make_heap self freq) = codes self /\
  reverse_mapping (make_heap self freq) = reverse_mapping self.
Proof.
  induction freq as [|[k f] freq IH]; intros self; [auto|].
  rewrite make_heap_cons.
  destruct (IH (mkHuffmanCoding
                  (heappush HeapNode_lt (heap self) (new_HeapNode (Some k) f))
                  (frequency self) (codes self) (reverse_mapping self)))
    as (H1 & H2 & H3).
  auto.
Qed.

Lemma make_heap_spec (freq : list (char * Z)) : forall self,
  is_heap HeapNode_lt (heap self) ->
  is_heap HeapNode_lt (heap (make_heap self freq)) /\
  heap (make_heap self freq) ≡ₚ heap self ++ map leaf freq.
Proof.
  induction freq as [|[k f] freq IH]; intros self Hh.
  - simpl. rewrite app_nil_r. auto.
  - destruct (push_spec (heap self) (new_HeapNode (Some k) f) Hh) as [Hh1 Hp1].
    rewrite make_heap_cons.
    destruct (IH (mkHuffmanCoding
                  (heappush HeapNode_lt (heap self) (new_HeapNode (Some k) f))
                  (frequency self) (codes self) (reverse_mapping self)) Hh1)
      as [IH1 IH2].
    split; [exact IH1|]. rewrite IH2. cbn [heap map]. rewrite Hp1.
    change (leaf (k, f)) with (new_HeapNode (Some k) f).
    apply Permutation_middle.
Qed.

Lemma merge_step_spec (h : list HeapNode) :
  is_heap HeapNode_lt h -> 1 < length h ->
  exists node1 h1 node2 h2,
    heappop HeapNode_lt h = Ok (node1, h1) /\
    heappop HeapNode_lt h1 = Ok (node2, h2) /\
    (forall y, y ∈ h -> (node_freq node1 <= node_freq y)%Z) /\
    (forall y, y ∈ h1 -> (node_freq node2 <= node_freq y)%Z) /\
    h ≡ₚ node1 :: node2 :: h2 /\
    merge_step h = Ok (heappush HeapNode_lt h2 (merged node1 node2)) /\
    is_heap HeapNode_lt (heappush HeapNode_lt h2 (merged node1 node2)) /\
    heappush HeapNode_lt h2 (merged node1 node2) ≡ₚ merged node1 node2 :: h2.
Proof.
  intros Hh Hlen.
  destruct (pop_spec h Hh) as (n1 & h1 & Hpop1 & Hh1 & Hperm1 & Hmin1).
  { intros ->. simpl in Hlen. lia. }
  destruct (pop_spec h1 Hh1) as (n2 & h2 & Hpop2 & Hh2 & Hperm2 & Hmin2).
  { intros ->. apply Permutation_length in Hperm1. simpl in Hperm1. lia. }
  destruct (push_spec h2 (merged n1 n2) Hh2) as [Hh3 Hperm3].
  exists n1, h1, n2, h2. repeat (split; [assumption|]).
  split; [rewrite Hperm1, Hperm2; reflexivity|].
  split; [|split; assumption].
  unfold merge_step. rewrite Hpop1. simpl. rewrite Hpop2. reflexivity.
Qed.

Lemma merge_step_forest (items : list (char * Z)) (h : list HeapNode) :
  forest_ok items h -> 1 < length h ->
  exists h', merge_step h = Ok h' /\ forest_ok items h' /\
    S (length h') = length h.
Proof.
  intros [Hh Hwf Hw Hit] Hlen.
  destruct (merge_step_spec h Hh Hlen)
    as (n1 & h1 & n2 & h2 & _ & _ & _ & _ & Hperm & Hstep & Hh' & Hperm').
  exists (heappush HeapNode_lt h2 (merged n1 n2)).
  split; [exact Hstep|].
  rewrite Hperm in Hwf, Hw, Hit, Hlen.
  apply Forall_cons in Hwf as [Hwf1 Hwf]. apply Forall_cons in Hwf as [Hwf2 Hwf].
  apply Forall_cons in Hw as [Hw1 Hw]. apply Forall_cons in Hw as [Hw2 Hw].
  split; [split|].
  - exact Hh'.
  - rewrite Hperm'. apply Forall_cons. split; [constructor; assumption|assumption].
  - rewrite Hperm'. apply Forall_cons. split; [|assumption].
    simpl. rewrite sum_freq_app. congruence.
  - rewrite Hperm'. rewrite <- Hit. simpl. rewrite app_assoc. reflexivity.
  - rewrite Hperm'. rewrite Hperm. reflexivity.
Qed.

Lemma merge_nodes_loop_spec (items : list (char * Z)) (fuel : nat) :
  forall h, forest_ok items h -> h <> [] -> length h <= S fuel ->
  exists root, merge_nodes_loop fuel h = Ok [root] /\ forest_ok items [root].
Proof.
  induction fuel as [|fuel IH]; intros h Hok Hne Hlen.
  - destruct h as [|root [|? ?]]; simpl in *; try congruence; try lia. eauto.
  - cbn [merge_nodes_loop]. destruct (1 <? length h) eqn:Hone.
    + apply Nat.ltb_lt in Hone.
      destruct (merge_step_forest items h Hok Hone) as (h' & -> & Hok' & Hl).
      simpl. apply IH; [assumption| |lia].
      intros ->. simpl in Hl. lia.
    + apply Nat.ltb_ge in Hone.
      destruct h as [|root [|? ?]]; simpl in *; try congruence; try lia. eauto.
Qed.

Lemma dict_set_incr_sum (d : list (char * Z)) (c : char) :
  sum_freq (dict_set d c (default 0%Z (dict_get d c) + 1)%Z)
  = (sum_freq d + 1)%Z.
Proof.
  induction d as [|[k v] d IH]; simpl; [lia|].
  destruct (decide (k = c)); simpl; lia.
Qed.

Lemma Counter_sum (text : str) :
  sum_freq (Counter text) = Z.of_nat (length text).
Proof.
  unfold Counter.
  assert (H : forall d,
    sum_freq (fold_left
      (fun d c => dict_set d c (default 0%Z (dict_get d c) + 1)%Z) text d)
    = (sum_freq d + Z.of_nat (length text))%Z).
  { induction text as [|c text IH]; intros d; simpl length; cbn [fold_left].
    - lia.
    - rewrite IH, dict_set_incr_sum. lia. }
  rewrite H. reflexivity.
Qed.

(** The run the loop of [merge_nodes] is to perform, told pass by pass:
    a heap of at most one node is left as it is; on a longer heap a pass
    pops [node1], a node of least weight of the heap, then [node2], a
    node of least weight of what is left, and pushes the node without a
    symbol whose weight is the sum and whose children are [node1] on the
    left and [node2] on the right; the run goes on from the heap so
    obtained. *)
Inductive merge_run : list HeapNode -> list HeapNode -> Prop :=
| merge_run_done h :
    length h <= 1 -> merge_run h h
| merge_run_pass h node1 h1 node2 h2 h' :
    1 < length h ->
    heappop HeapNode_lt h = Ok (node1, h1) ->
    heappop HeapNode_lt h1 = Ok (node2, h2) ->
    (forall y, y ∈ h -> (node_freq node1 <= node_freq y)%Z) ->
    (forall y, y ∈ h1 -> (node_freq node2 <= node_freq y)%Z) ->
    h ≡ₚ node1 :: node2 :: h2 ->
    merge_run
      (heappush HeapNode_lt h2
         (Node None (node_freq node1 + node_freq node2)
            (Some node1) (Some node2))) h' ->
    merge_run h h'.

(** The number of passes of a run. *)
Inductive merge_passes : nat -> list HeapNode -> list HeapNode -> Prop :=
| merge_passes_O h :
    length h <= 1 -> merge_passes 0 h h
| merge_passes_S n h h1 h' :
    1 < length h -> merge_step h = Ok h1 -> merge_passes n h1 h' ->
    merge_passes (S n) h h'.

Lemma merge_run_end (h h' : list HeapNode) :
  merge_run h h' -> length h' <= 1.
Proof. induction 1; assumption. Qed.

Lemma merge_run_functional (h a b : list HeapNode) :
  merge_run h a -> merge_run h b -> a = b.
Proof.
  intros Ha. revert b.
  induction Ha as [h Hlen | h n1 h1 n2 h2 h' Hlen Hp1 Hp2 _ _ _ _ IH];
    intros b Hb.
  - inversion Hb; subst; [reflexivity|lia].
  - inversion Hb as [? Hlen' | ? m1 k1 m2 k2 ? _ Hq1 Hq2 _ _ _ Hrun]; subst;
      [lia|].
    rewrite Hp1 in Hq1. injection Hq1 as <- <-.
    rewrite Hp2 in Hq2. injection Hq2 as <- <-.
    apply IH, Hrun.
Qed.

Lemma merge_nodes_loop_run (fuel : nat) :
  forall h, is_heap HeapNode_lt h -> length h <= S fuel ->
  exists h',
    merge_nodes_loop fuel h = Ok h' /\ merge_run h h' /\
    merge_passes (length h - length h') h h'.
Proof.
  induction fuel as [|fuel IH]; intros h Hh Hlen.
  - exists h. cbn [merge_nodes_loop]. split; [reflexivity|].
    rewrite Nat.sub_diag. split; constructor; exact Hlen.
  - cbn [merge_nodes_loop]. destruct (1 <? length h) eqn:Hone.
    + apply Nat.ltb_lt in Hone.
      destruct (merge_step_spec h Hh Hone)
        as (n1 & h1 & n2 & h2 & Hp1 & Hp2 & Hm1 & Hm2 & Hperm & Hstep
            & Hh' & Hperm').
      rewrite Hstep. cbn [bind].
      assert (Hl : S (length (heappush HeapNode_lt h2 (merged n1 n2)))
                   = length h).
      { rewrite Hperm', Hperm. reflexivity. }
      destruct (IH (heappush HeapNode_lt h2 (merged n1 n2)) Hh')
        as (h' & Hloop & Hrun & Hpasses); [lia|].
      exists h'. split; [exact Hloop|]. split.
      * exact (merge_run_pass h n1 h1 n2 h2 h' Hone Hp1 Hp2 Hm1 Hm2 Hperm
                 Hrun).
      * pose proof (merge_run_end _ _ Hrun) as Hend.
        replace (length h - length h')
          with (S (length (heappush HeapNode_lt h2 (merged n1 n2))
                   - length h')) by lia.
        exact (merge_passes_S _ h _ h' Hone Hstep Hpasses).
    + apply Nat.ltb_ge in Hone. exists h. split; [reflexivity|].
      rewrite Nat.sub_diag. split; constructor; exact Hone.
Qed.

(** The part of [compress] that builds the tree: after [make_heap] and
    [merge_nodes] the heap holds one well-formed tree over the symbols of
    the frequency map. *)
Lemma build_tree (self : HuffmanCoding) (freq : list (char * Z)) :
  heap self = [] -> freq <> [] ->
  exists root,
    merge_nodes (make_heap self freq)
    = Ok (mkHuffmanCoding [root] (frequency self) (codes self)
            (reverse_mapping self)) /\
    wf_tree root /\ leaf_items root ≡ₚ freq /\
    node_freq root = sum_freq freq.
Proof.
  intros Hempty Hne.
  destruct (make_heap_spec freq self) as [Hh Hperm].
  { rewrite Hempty. intros i Hi a b Ha. discriminate. }
  rewrite Hempty in Hperm. simpl in Hperm.
  assert (Hok : forest_ok freq (heap (make_heap self freq))).
  { split.
    - exact Hh.
    - rewrite Hperm. apply Forall_map, Forall_forall. intros [k f] _.
      constructor.
    - rewrite Hperm. apply Forall_map, Forall_forall. intros [k f] _.
      simpl. lia.
    - rewrite Hperm. clear. induction freq as [|[k f] freq IH]; simpl; auto. }
  assert (Hlen : length (heap (make_heap self freq)) = length freq).
  { rewrite Hperm. apply length_map. }
  destruct (merge_nodes_loop_spec freq
              (length (heap (make_heap self freq)) - 1)
              (heap (make_heap self freq)) Hok) as (root & Hloop & Hroot).
  { intros Hnil. rewrite Hnil in Hlen. destruct freq; simpl in *; congruence. }
  { lia. }
  exists root. unfold merge_nodes. rewrite Hloop. simpl.
  destruct (make_heap_fields freq self) as (-> & -> & ->).
  split; [reflexivity|].
  destruct Hroot as [_ Hwf Hw Hit].
  apply Forall_cons in Hw as [Hw _]. apply Forall_cons in Hwf as [Hwf _].
  simpl in Hit. rewrite app_nil_r in Hit.
  split; [exact Hwf|]. split; [exact Hit|].
  rewrite Hw. apply sum_freq_Permutation, Hit.
Qed.

(** [C8] [make_heap] puts one leaf per entry of the frequency map into a
    heap ordered by weight. Every pass of [merge_nodes] on a heap of more
    than one node pops a node of least weight, then a node of least weight
    among the rest, and pushes a node with no symbol whose weight is their
    sum, whose left child is the first and whose right child is the second
    node popped. The loop ends with exactly one node, the root; its weight
    is the sum of the frequencies, which is the length of the text when
    the map counts a text. The heap the loop leaves is the one, and the
    only one, that the run of such passes from the heap of leaves ends
    with, after one pass less than there are entries in the map. *)
Theorem tree_building (self : HuffmanCoding) (freq : list (char * Z)) :
  heap self = [] -> freq <> [] ->
  heap (make_heap self freq) ≡ₚ map leaf freq /\
  is_heap HeapNode_lt (heap (make_heap self freq)) /\
  (forall h, is_heap HeapNode_lt h -> 1 < length h ->
     exists node1 h1 node2 h2,
       heappop HeapNode_lt h = Ok (node1, h1) /\
       heappop HeapNode_lt h1 = Ok (node2, h2) /\
       (forall y, y ∈ h -> (node_freq node1 <= node_freq y)%Z) /\
       (forall y, y ∈ h1 -> (node_freq node2 <= node_freq y)%Z) /\
       h ≡ₚ node1 :: node2 :: h2 /\
       merge_step h
       = Ok (heappush HeapNode_lt h2
               (Node None (node_freq node1 + node_freq node2)
                  (Some node1) (Some node2))) /\
       is_heap HeapNode_lt
         (heappush HeapNode_lt h2 (merged node1 node2)) /\
       heappush HeapNode_lt h2 (merged node1 node2)
       ≡ₚ merged node1 node2 :: h2) /\
  exists root,
    merge_nodes (make_heap self freq)
    = Ok (mkHuffmanCoding [root] (frequency self) (codes self)
            (reverse_mapping self)) /\
    node_freq root = sum_freq freq /\
    leaf_items root ≡ₚ freq /\
    (forall text, freq = Counter text ->
       node_freq root = Z.of_nat (length text)) /\
    merge_run (heap (make_heap self freq)) [root] /\
    (forall h', merge_run (heap (make_heap self freq)) h' -> h' = [root]) /\
    merge_passes (length freq - 1) (heap (make_heap self freq)) [root].
Proof.
  intros Hempty Hne.
  destruct (make_heap_spec freq self) as [Hh Hperm].
  { rewrite Hempty. intros i Hi a b Ha. discriminate. }
  rewrite Hempty in Hperm. simpl in Hperm.
  split; [exact Hperm|]. split; [exact Hh|].
  split; [intros h; apply merge_step_spec|].
  destruct (build_tree self freq Hempty Hne) as (root & Hm & _ & Hit & Hsum).
  exists root. split; [exact Hm|]. split; [exact Hsum|]. split; [exact Hit|].
  split; [intros text ->; rewrite Hsum; apply Counter_sum|].
  destruct (merge_nodes_loop_run (length (heap (make_heap self freq)) - 1)
              (heap (make_heap self freq)) Hh)
    as (h' & Hloop & Hrun & Hpasses); [lia|].
  unfold merge_nodes in Hm. rewrite Hloop in Hm. cbn [bind] in Hm.
  injection Hm as ->.
  split; [exact Hrun|]. split.
  - intros h' Hrun'. exact (merge_run_functional _ _ _ Hrun' Hrun).
  - assert (Hlen : length (heap (make_heap self freq)) = length freq).
    { rewrite (Permutation_length Hperm). apply length_map. }
    rewrite Hlen in Hpasses. exact Hpasses.
Qed.

Lemma tree_building_witness :
  exists root,
    merge_nodes (make_heap new_HuffmanCoding (Counter (str_of "abracadabra")))
    = Ok (mkHuffmanCoding [root] [] [] ∅) /\
    node_freq root = 11%Z /\
    merge_run
      (heap (make_heap new_HuffmanCoding (Counter (str_of "abracadabra"))))
      [root] /\
    merge_passes 4
      (heap (make_heap new_HuffmanCoding (Counter (str_of "abracadabra"))))
      [root].
Proof.
  destruct (tree_building new_HuffmanCoding (Counter (str_of "abracadabra")))
    as (_ & _ & _ & root & Hm & _ & _ & Hlen & Hrun & _ & Hpasses).
  - reflexivity.
  - vm_compute. discriminate.
  - exists root. split; [exact Hm|].
    split; [apply (Hlen (str_of "abracadabra")); reflexivity|].
    split; [exact Hrun|exact Hpasses].
Defined.

Example merge_nodes_ex :
  merge_nodes (make_heap new_HuffmanCoding (Counter (str_of "aabbbc")))
  = Ok (mkHuffmanCoding
          [merged (leaf (98%N, 3%Z))
             (merged (leaf (99%N, 1%Z)) (leaf (97%N, 2%Z)))] [] [] ∅).
Proof. vm_compute. reflexivity. Qed.

(** ** Code assignment *)

(** The symbols a walk from [root] meets, each with the path to it. *)
Fixpoint paths (root : HeapNode) (current_code : str) : list (char * str) :=
  match root with
  | Node ch _ l r =>
      match ch with Some c => [(c, current_code)] | None => [] end
      ++ match l with Some l => paths l (current_code ++ [c0]) | None => [] end
      ++ match r with Some r => paths r (current_code ++ [c1]) | None => [] end
  end.

Definition set_code (self : HuffmanCoding) (entry : char * str)
    : HuffmanCoding :=
  mkHuffmanCoding (heap self) (frequency self)
    (dict_set (codes self) entry.1 entry.2)
    (<[entry.2 := [entry.1]]> (reverse_mapping self)).

Definition opt_all (P : HeapNode -> Prop) (o : option HeapNode) : Prop :=
  match o with
  | Some n => P n
  | None => True
  end.

Fixpoint HeapNode_nested_ind (P : HeapNode -> Prop)
    (step : forall ch f l r, opt_all P l -> opt_all P r -> P (Node ch f l r))
    (n : HeapNode) : P n :=
  match n with
  | Node ch f l r =>
      step ch f l r
        (match l return opt_all P l with
         | Some l' => HeapNode_nested_ind P step l'
         | None => I
         end)
        (match r return opt_all P r with
         | Some r' => HeapNode_nested_ind P step r'
         | None => I
         end)
  end.

Lemma make_codes_helper_paths (root : HeapNode) :
  forall self current_code,
    make_codes_helper self root current_code
    = fold_left set_code (paths root current_code) self.
Proof.
  induction root as [ch f l r IHl IHr] using HeapNode_nested_ind.
  intros self code. cbn [make_codes_helper paths].
  rewrite !fold_left_app.
  assert (Hch : match ch with
                | Some c =>
                    mkHuffmanCoding (heap self) (frequency self)
                      (dict_set (codes self) c code)
                      (<[code := [c]]> (reverse_mapping self))
                | None => self
                end
                = fold_left set_code
                    (match ch with Some c => [(c, code)] | None => [] end) self)
    by (destruct ch; reflexivity).
  rewrite Hch. clear Hch.
  set (self1 := fold_left set_code _ self).
  assert (Hl : match l with
               | Some l => make_codes_helper self1 l (code ++ [c0])
               | None => self1
               end
               = fold_left set_code
                   (match l with
                    | Some l => paths l (code ++ [c0])
                    | None => []
                    end) self1)
    by (destruct l; [apply IHl|reflexivity]).
  rewrite Hl. clear Hl.
  destruct r; [apply IHr|reflexivity].
Qed.

Lemma paths_symbols (root : HeapNode) : forall code,
  map fst (paths root code) = map fst (leaf_items root).
Proof.
  induction root as [ch f l r IHl IHr] using HeapNode_nested_ind.
  intros code. cbn [paths leaf_items]. rewrite !map_app.
  f_equal; [destruct ch; reflexivity|].
  f_equal; [destruct l; [apply IHl|reflexivity]|].
  destruct r; [apply IHr|reflexivity].
Qed.

(** Every code below a node extends the path to the node by bits. *)
Lemma paths_extend (root : HeapNode) : forall code c k,
  (c, k) ∈ paths root code ->
  exists suffix, k = code ++ suffix /\ Forall is_bit suffix.
Proof.
  induction root as [ch f l r IHl IHr] using HeapNode_nested_ind.
  intros code c k. cbn [paths]. rewrite !elem_of_app.
  intros [H | [H | H]].
  - destruct ch; [|inversion H]. apply list_elem_of_singleton in H.
    injection H as -> ->. exists []. rewrite app_nil_r. auto.
  - destruct l as [l|]; [|inversion H].
    destruct (IHl _ _ _ H) as (s & -> & Hs). exists (c0 :: s).
    rewrite <- app_assoc. split; [reflexivity|].
    constructor; [left; reflexivity|assumption].
  - destruct r as [r|]; [|inversion H].
    destruct (IHr _ _ _ H) as (s & -> & Hs). exists (c1 :: s).
    rewrite <- app_assoc. split; [reflexivity|].
    constructor; [right; reflexivity|assumption].
Qed.

(** No code in the list is a prefix of a code at another place of it. *)
Fixpoint pairwise_free (ks : list (char * str)) : Prop :=
  match ks with
  | [] => True
  | e :: ks' =>
      Forall (fun e' => ~ e.2 `prefix_of` e'.2 /\ ~ e'.2 `prefix_of` e.2) ks'
      /\ pairwise_free ks'
  end.

Lemma pairwise_free_app (a b : list (char * str)) :
  pairwise_free a -> pairwise_free b ->
  (forall x y, x ∈ a -> y ∈ b ->
     ~ x.2 `prefix_of` y.2 /\ ~ y.2 `prefix_of` x.2) ->
  pairwise_free (a ++ b).
Proof.
  induction a as [|e a IH]; intros Ha Hb Hab; [exact Hb|].
  destruct Ha as [Hea Ha]. simpl. split.
  - apply Forall_app. split; [exact Hea|].
    apply Forall_forall. intros y Hy. apply Hab; [left|exact Hy].
  - apply IH; auto. intros x y Hx Hy. apply Hab; [right; exact Hx|exact Hy].
Qed.

Lemma branches_incomparable (code s t : str) :
  ~ (code ++ [c0]) ++ s `prefix_of` (code ++ [c1]) ++ t /\
  ~ (code ++ [c1]) ++ t `prefix_of` (code ++ [c0]) ++ s.
Proof.
  split; intros [u Hu]; rewrite <- !app_assoc in Hu;
    apply app_inv_head in Hu; simpl in Hu; discriminate.
Qed.

Lemma paths_pairwise_free (root : HeapNode) :
  wf_tree root -> forall code, pairwise_free (paths root code).
Proof.
  induction 1 as [c f|f l r Hl IHl Hr IHr]; intros code; cbn [paths].
  - simpl. auto.
  - simpl. apply pairwise_free_app; [apply IHl|apply IHr|].
    intros [x kx] [y ky] Hx Hy.
    apply paths_extend in Hx as (s & -> & _).
    apply paths_extend in Hy as (t & -> & _).
    apply branches_incomparable.
Qed.

Lemma pairwise_free_elem (l : list (char * str)) (e e' : char * str) :
  pairwise_free l -> e ∈ l -> e' ∈ l -> e <> e' ->
  ~ e.2 `prefix_of` e'.2.
Proof.
  induction l as [|x l IH]; intros Hl He He' Hne; [inversion He|].
  destruct Hl as [Hx Hl]. rewrite Forall_forall in Hx.
  apply elem_of_cons in He as [-> | He];
    apply elem_of_cons in He' as [-> | He'].
  - congruence.
  - apply (Hx e' He').
  - apply (Hx e He).
  - apply IH; assumption.
Qed.

Lemma dict_set_elem {V} (d : list (char * V)) (k c : char) (v w : V) :
  (c, w) ∈ dict_set d k v -> (c, w) ∈ d \/ (c, w) = (k, v).
Proof.
  induction d as [|[k' v'] d IH]; simpl.
  - intros H. apply list_elem_of_singleton in H. auto.
  - destruct (decide (k' = k)) as [-> | Hk]; rewrite !elem_of_cons.
    + intros [H | H]; auto.
    + intros [H | H]; auto. destruct (IH H); auto.
Qed.

Lemma fold_set_code_fields (l : list (char * str)) : forall self,
  heap (fold_left set_code l self) = heap self /\
  frequency (fold_left set_code l self) = frequency self /\
  codes (fold_left set_code l self)
  = fold_left (fun d e => dict_set d e.1 e.2) l (codes self) /\
  reverse_mapping (fold_left set_code l self)
  = fold_left (fun m e => <[e.2 := [e.1]]> m) l (reverse_mapping self).
Proof.
  induction l as [|e l IH]; intros self; [auto|].
  cbn [fold_left]. destruct (IH (set_code self e)) as (-> & -> & -> & ->).
  auto.
Qed.

Lemma fold_dict_set_elem (l : list (char * str)) : forall d c k,
  (c, k) ∈ fold_left (fun d e => dict_set d e.1 e.2) l d ->
  (c, k) ∈ d \/ (c, k) ∈ l.
Proof.
  induction l as [|[c' k'] l IH]; intros d c k H; [auto|].
  cbn [fold_left] in H. apply IH in H as [H | H].
  - apply dict_set_elem in H as [H | H]; [auto|].
    right. rewrite H. left.
  - right. right. exact H.
Qed.

Lemma heappop_singleton (root : HeapNode) :
  heappop HeapNode_lt [root] = Ok (root, []).
Proof. reflexivity. Qed.

Definition prefix_free (table : list (char * str)) : Prop :=
  forall c1 k1 c2 k2,
    (c1, k1) ∈ table -> (c2, k2) ∈ table -> c1 <> c2 ->
    k1 <> k2 /\ ~ k1 `prefix_of` k2.

(** [C4] The code table the tree walk produces for a frequency map is
    prefix-free: the codes of two distinct symbols differ and neither is a
    prefix of the other. (The empty map has no table: [make_codes] pops
    from an empty heap.) *)
Theorem code_table_prefix_free (freq : list (char * Z)) :
  (freq = [] /\ build_codes freq = Raise IndexError) \/
  (exists table, build_codes freq = Ok table /\ prefix_free table).
Proof.
  destruct freq as [|kv freq]; [left; split; reflexivity|]. right.
  destruct (build_tree new_HuffmanCoding (kv :: freq))
    as (root & Hm & Hwf & _ & _); [reflexivity|discriminate|].
  unfold build_codes. rewrite Hm. cbn [bind]. unfold make_codes.
  cbn [heap]. rewrite heappop_singleton. cbn [bind].
  rewrite make_codes_helper_paths.
  eexists. split; [reflexivity|].
  destruct (fold_set_code_fields (paths root []) (mkHuffmanCoding [] [] [] ∅))
    as (_ & _ & Hcodes & _).
  cbn [heap frequency codes reverse_mapping new_HuffmanCoding] in *.
  rewrite Hcodes.
  intros x1 k1 x2 k2 H1 H2 Hne.
  apply fold_dict_set_elem in H1 as [H1 | H1]; [inversion H1|].
  apply fold_dict_set_elem in H2 as [H2 | H2]; [inversion H2|].
  assert (Hfree : ~ k1 `prefix_of` k2).
  { apply (pairwise_free_elem (paths root []) (x1, k1) (x2, k2));
      [apply paths_pairwise_free, Hwf|assumption|assumption|congruence]. }
  split; [|exact Hfree]. intros ->. apply Hfree. reflexivity.
Qed.

Example build_codes_ex :
  build_codes (Counter (str_of "aabbbc"))
  = Ok [(98%N, str_of "0"); (99%N, str_of "10"); (97%N, str_of "11")].
Proof. vm_compute. reflexivity. Qed.

(** [C2] For a frequency map with one symbol the heap holds one leaf,
    [merge_nodes] merges nothing and leaves it as the root, and
    [make_codes] gives the symbol the code it starts the walk with: the
    empty string. *)
Theorem single_symbol_code (c : char) (f : Z) :
  heap (make_heap new_HuffmanCoding [(c, f)]) = [leaf (c, f)] /\
  merge_nodes (make_heap new_HuffmanCoding [(c, f)])
  = Ok (make_heap new_HuffmanCoding [(c, f)]) /\
  build_codes [(c, f)] = Ok [(c, [])].
Proof. repeat split. Qed.

(** The text [aaaa]: its symbol is coded by the empty string, the encoded
    text is empty, and the table line [a ] has one field, so the program
    ends in [decode_text] with a [ValueError]. *)
Lemma single_symbol_text :
  build_codes (Counter (str_of "aaaa")) = Ok [(97%N, [])] /\
  main (str_of "aaaa") None = Raise ValueError.
Proof. split; vm_compute; reflexivity. Qed.

(** ** The empty text *)

(** What the two halves of the program do with the empty text:
    [compress] builds no tree, writes the single byte 10 and leaves the
    table file as it was; [decompress] has no case for that byte: it
    reads it as the header 10 in front of an empty payload, for which
    [remove_padding] returns the empty bit string, and [decode_text]
    then opens and loads the table file like for any other input. *)
Lemma empty_text_path (self : HuffmanCoding) (codes_file : option str) :
  compress self [] codes_file = Ok (self, [c_nl], codes_file) /\
  bits_of_bytes [c_nl] = str_of "00001010" /\
  remove_padding (bits_of_bytes [c_nl]) = Ok [] /\
  forall table,
    decompress self [c_nl] (Some table)
    = bind (load_codes (reverse_mapping self) table)
        (fun rm =>
           Ok (mkHuffmanCoding (heap self) (frequency self) (codes self) rm,
               [])).
Proof. repeat split. Qed.

(** [C6] The empty text, where no table file exists yet: [compress]
    handles it (no tree, the one byte 10, no table file written), but
    [decompress] of that byte opens the table file that was never written
    and the run ends with [FileNotFoundError] instead of the empty text;
    so does the program, with one object or with a new decoder. *)
Theorem empty_text_decode_fails (self : HuffmanCoding) :
  compress self [] None = Ok (self, [c_nl], None) /\
  remove_padding (bits_of_bytes [c_nl]) = Ok [] /\
  decode_text self [] None = Raise FileNotFoundError /\
  decompress self [c_nl] None = Raise FileNotFoundError /\
  main [] None = Raise FileNotFoundError /\
  roundtrip_fresh [] None = Raise FileNotFoundError.
Proof. repeat split. Qed.

(** ** The persisted code table *)

Definition entry_line (e : char * str) : str :=
  escape e.1 ++ [c_sp] ++ e.2 ++ [c_nl].

Definition table_text (table : list (char * str)) : str :=
  concat (map entry_line table).

(** A symbol [output_codes] can write so that the line reads back: not a
    blank, or one of the two blanks that are escaped. *)
Definition escapable (c : char) : bool :=
  negb (isspace c) || (c =? c_nl)%N || (c =? c_sp)%N.

(** A field of a line: not empty, no blank in it. *)
Definition word (w : str) : Prop :=
  w <> [] /\ Forall (fun c => isspace c = false) w.

Lemma output_codes_table_text (self : HuffmanCoding) :
  output_codes self = table_text (codes self).
Proof.
  unfold output_codes, table_text.
  assert (H : forall l acc,
    fold_left (fun file '(c, code) => file ++ escape c ++ [c_sp] ++ code ++ [c_nl])
      l acc = acc ++ concat (map entry_line l)).
  { induction l as [|[c k] l IH]; intros acc; cbn [fold_left map concat].
    - rewrite app_nil_r. reflexivity.
    - rewrite IH, <- app_assoc. reflexivity. }
  apply (H _ []).
Qed.

Lemma is_bit_not_space (c : char) : is_bit c -> isspace c = false.
Proof. intros [-> | ->]; reflexivity. Qed.

Lemma bits_word (k : str) : k <> [] -> Forall is_bit k -> word k.
Proof.
  intros Hne Hk. split; [exact Hne|].
  eapply Forall_impl; [exact Hk|]. apply is_bit_not_space.
Qed.

Lemma escape_word (c : char) : escapable c = true -> word (escape c).
Proof.
  unfold escapable, escape. intros H.
  destruct (c =? c_nl)%N eqn:Hnl; [split; [discriminate|repeat constructor]|].
  destruct (c =? c_sp)%N eqn:Hsp; [split; [discriminate|repeat constructor]|].
  rewrite !orb_false_r in H. apply negb_true_iff in H.
  split; [discriminate|repeat constructor; exact H].
Qed.

Lemma unescape_escape (c : char) : unescape (escape c) = [c].
Proof.
  unfold escape, unescape.
  destruct (c =? c_nl)%N eqn:Hnl.
  { apply N.eqb_eq in Hnl as ->. reflexivity. }
  destruct (c =? c_sp)%N eqn:Hsp.
  { apply N.eqb_eq in Hsp as ->. reflexivity. }
  rewrite !decide_False by discriminate. reflexivity.
Qed.

Lemma drop_while_word (w s : str) :
  word w -> drop_while isspace (w ++ s) = w ++ s.
Proof.
  intros [Hne Hw]. destruct w as [|c w]; [congruence|].
  inversion Hw as [|? ? Hc _]; subst. simpl. rewrite Hc. reflexivity.
Qed.

Lemma word_rev (w : str) : word w -> word (rev w).
Proof.
  intros [Hne Hw]. split.
  - intros H. apply Hne. rewrite <- (rev_involutive w), H. reflexivity.
  - apply Forall_forall. intros c Hc. rewrite Forall_forall in Hw.
    apply Hw. apply list_elem_of_In, in_rev, list_elem_of_In. exact Hc.
Qed.

Lemma split_aux_word (w s : str) :
  Forall (fun c => isspace c = false) w ->
  split_aux (w ++ s) = (w ++ (split_aux s).1, (split_aux s).2).
Proof.
  induction 1 as [|c w Hc Hw IH]; simpl.
  - destruct (split_aux s); reflexivity.
  - rewrite IH, Hc. reflexivity.
Qed.

Lemma split_word (w : str) : word w -> split w = [w].
Proof.
  intros [Hne Hw]. unfold split.
  rewrite <- (app_nil_r w) at 1. rewrite split_aux_word by assumption.
  simpl. rewrite app_nil_r. destruct w; [congruence|reflexivity].
Qed.

Lemma split_two_words (w1 w2 : str) :
  word w1 -> word w2 -> split (w1 ++ c_sp :: w2) = [w1; w2].
Proof.
  intros [Hne1 Hw1] [Hne2 Hw2]. unfold split.
  rewrite split_aux_word by assumption. cbn [split_aux].
  rewrite <- (app_nil_r w2) at 1 2. rewrite split_aux_word by assumption.
  simpl. rewrite !app_nil_r.
  destruct w1; [congruence|]. destruct w2; [congruence|]. reflexivity.
Qed.

Lemma strip_entry_line (w1 w2 : str) :
  word w1 -> word w2 ->
  strip (w1 ++ [c_sp] ++ w2 ++ [c_nl]) = w1 ++ c_sp :: w2.
Proof.
  intros H1 H2. unfold strip. rewrite drop_while_word by assumption.
  replace (rev (w1 ++ [c_sp] ++ w2 ++ [c_nl]))
    with (c_nl :: rev w2 ++ (c_sp :: rev w1)).
  2:{ rewrite !rev_app_distr. simpl. rewrite <- !app_assoc. reflexivity. }
  cbn [drop_while]. change (isspace c_nl) with true. cbv iota.
  rewrite drop_while_word by (apply word_rev; assumption).
  rewrite rev_app_distr. simpl. rewrite !rev_involutive, <- app_assoc.
  reflexivity.
Qed.

Lemma load_line_entry (rm : gmap str str) (w1 w2 : str) :
  word w1 -> word w2 ->
  load_line rm (w1 ++ [c_sp] ++ w2 ++ [c_nl]) = Ok (<[w2 := w1]> rm).
Proof.
  intros H1 H2. unfold load_line.
  rewrite strip_entry_line, split_two_words by assumption. reflexivity.
Qed.

Lemma universal_newlines_id (s : str) :
  Forall (fun c => c <> c_cr) s -> universal_newlines s = s.
Proof.
  induction 1 as [|c s Hc Hs IH]; [reflexivity|].
  cbn [universal_newlines]. apply N.eqb_neq in Hc. rewrite Hc, IH.
  reflexivity.
Qed.

Lemma readlines_line (w rest : str) :
  Forall (fun c => c <> c_nl) w ->
  readlines (w ++ c_nl :: rest) = (w ++ [c_nl]) :: readlines rest.
Proof.
  induction 1 as [|c w Hc Hw IH]; [reflexivity|].
  cbn [app readlines]. apply N.eqb_neq in Hc. rewrite Hc, IH. reflexivity.
Qed.

Lemma not_space_not_newline (w : str) :
  Forall (fun c => isspace c = false) w ->
  Forall (fun c => c <> c_nl) w /\ Forall (fun c => c <> c_cr) w.
Proof.
  intros Hw. split; (eapply Forall_impl; [exact Hw|]);
    intros c Hc ->; discriminate.
Qed.

(** An entry whose line reads back as two fields. *)
Definition loadable (e : char * str) : Prop :=
  escapable e.1 = true /\ e.2 <> [] /\ Forall is_bit e.2.

Lemma loadable_words (e : char * str) :
  loadable e -> word (escape e.1) /\ word e.2.
Proof.
  intros (He & Hne & Hk). split; [apply escape_word, He|apply bits_word; auto].
Qed.

Lemma entry_line_body (e : char * str) :
  loadable e ->
  Forall (fun c => c <> c_nl) (escape e.1 ++ c_sp :: e.2) /\
  Forall (fun c => c <> c_cr) (entry_line e).
Proof.
  intros [[_ H1] [_ H2]]%loadable_words.
  apply not_space_not_newline in H1 as [H1n H1r].
  apply not_space_not_newline in H2 as [H2n H2r].
  split.
  - apply Forall_app. split; [exact H1n|].
    constructor; [discriminate|exact H2n].
  - unfold entry_line. apply Forall_app. split; [exact H1r|].
    constructor; [discriminate|]. apply Forall_app. split; [exact H2r|].
    constructor; [discriminate|constructor].
Qed.

Lemma readlines_table (table : list (char * str)) :
  Forall loadable table ->
  universal_newlines (table_text table) = table_text table /\
  readlines (table_text table) = map entry_line table.
Proof.
  intros Ht. split.
  - apply universal_newlines_id. unfold table_text.
    induction Ht as [|e t He Ht IH]; [constructor|].
    cbn [map concat]. apply Forall_app. split; [|exact IH].
    apply entry_line_body, He.
  - unfold table_text. induction Ht as [|e t He Ht IH]; [reflexivity|].
    cbn [map concat].
    replace (entry_line e ++ concat (map entry_line t))
      with ((escape e.1 ++ c_sp :: e.2) ++ c_nl :: concat (map entry_line t)).
    2:{ unfold entry_line. rewrite <- ?app_assoc. simpl.
        rewrite <- ?app_assoc. reflexivity. }
    rewrite readlines_line by (apply entry_line_body, He).
    rewrite IH. f_equal. unfold entry_line. rewrite <- ?app_assoc. reflexivity.
Qed.

Definition load_entry (rm : gmap str str) (e : char * str) : gmap str str :=
  <[e.2 := escape e.1]> rm.

Lemma load_codes_table (table : list (char * str)) (rm : gmap str str) :
  Forall loadable table ->
  load_codes rm (table_text table) = Ok (fold_left load_entry table rm).
Proof.
  intros Ht. unfold load_codes.
  destruct (readlines_table table Ht) as [-> ->].
  revert rm. induction Ht as [|e t He Ht IH]; intros rm; [reflexivity|].
  cbn [map fold_left bind].
  destruct (loadable_words e He) as [H1 H2].
  change (entry_line e) with (escape e.1 ++ [c_sp] ++ e.2 ++ [c_nl]).
  rewrite (load_line_entry rm (escape e.1) e.2 H1 H2).
  apply IH.
Qed.

Lemma fold_load_entry_other (table : list (char * str)) (k : str) :
  forall rm, (forall c, (c, k) ∉ table) ->
  fold_left load_entry table rm !! k = rm !! k.
Proof.
  induction table as [|[c' k'] t IH]; intros rm Hk; [reflexivity|].
  cbn [fold_left]. rewrite IH.
  - unfold load_entry. simpl. apply lookup_insert_ne.
    intros ->. apply (Hk c'). left.
  - intros c Hc. apply (Hk c). right. exact Hc.
Qed.

Lemma fold_load_entry_lookup (table : list (char * str)) (c : char) (k : str) :
  forall rm, (c, k) ∈ table ->
  (forall c', (c', k) ∈ table -> c' = c) ->
  fold_left load_entry table rm !! k = Some (escape c).
Proof.
  induction table as [|[c' k'] t IH]; intros rm Hin Hinj; [inversion Hin|].
  cbn [fold_left].
  destruct (decide ((c, k) ∈ t)) as [Ht | Ht].
  - apply IH; [exact Ht|]. intros c'' Hc''. apply Hinj. right. exact Hc''.
  - apply elem_of_cons in Hin as [Heq | Hin]; [|contradiction].
    injection Heq as <- <-.
    rewrite fold_load_entry_other.
    + unfold load_entry. simpl. apply lookup_insert_eq.
    + intros c'' Hc''. assert (c'' = c) as -> by (apply Hinj; right; exact Hc'').
      contradiction.
Qed.

(** [C7], as the program has it: when every symbol of the table is
    either no blank or one of newline and space, every code is a
    non-empty bit string and no two symbols share a code, the table file
    [output_codes] writes loads again in [decode_text], and the loaded
    mapping takes each code to an entry that unescapes to its symbol and
    holds no other code. *)
Theorem table_round_trip (self : HuffmanCoding) :
  Forall loadable (codes self) ->
  (forall c1 c2 k, (c1, k) ∈ codes self -> (c2, k) ∈ codes self -> c1 = c2) ->
  exists rm,
    load_codes ∅ (output_codes self) = Ok rm /\
    (forall c k, (c, k) ∈ codes self -> unescape <$> rm !! k = Some [c]) /\
    (forall k, (forall c, (c, k) ∉ codes self) -> rm !! k = None).
Proof.
  intros Hload Hinj. exists (fold_left load_entry (codes self) ∅).
  split; [|split].
  - rewrite output_codes_table_text. apply load_codes_table, Hload.
  - intros c k Hin. rewrite (fold_load_entry_lookup _ c k); [|exact Hin|].
    + simpl. rewrite unescape_escape. reflexivity.
    + intros c' Hc'. apply (Hinj c' c k); assumption.
  - intros k Hk. rewrite fold_load_entry_other by exact Hk. apply lookup_empty.
Qed.

Lemma table_round_trip_witness :
  exists rm,
    load_codes ∅
      (output_codes
         (mkHuffmanCoding [] []
            [(c_nl, str_of "0"); (c_sp, str_of "10"); (97%N, str_of "11")] ∅))
    = Ok rm /\
    unescape <$> rm !! str_of "0" = Some [c_nl] /\
    unescape <$> rm !! str_of "10" = Some [c_sp].
Proof.
  destruct (table_round_trip
              (mkHuffmanCoding [] []
                 [(c_nl, str_of "0"); (c_sp, str_of "10"); (97%N, str_of "11")]
                 ∅)) as (rm & Hrm & Hget & _).
  - cbn [codes].
    repeat (apply List.Forall_cons;
            [split; [reflexivity|split; [discriminate|solve_bits]]|]).
    apply List.Forall_nil.
  - cbn [codes]. intros c1 c2 k H1 H2.
    repeat (apply elem_of_cons in H1 as [H1 | H1]);
      repeat (apply elem_of_cons in H2 as [H2 | H2]);
      try (inversion H1; fail); try (inversion H2; fail);
      vm_compute in H1; vm_compute in H2; congruence.
  - exists rm. split; [exact Hrm|]. split; apply Hget; cbn [codes].
    + left.
    + right. left.
Defined.

(** A table with a tab symbol, and the table of a one-symbol text: the
    written file does not load again. *)
Lemma table_with_tab_fails :
  load_codes ∅
    (output_codes
       (mkHuffmanCoding [] [] [(9%N, str_of "0"); (97%N, str_of "1")] ∅))
  = Raise ValueError /\
  load_codes ∅ (output_codes (mkHuffmanCoding [] [] [(97%N, [])] ∅))
  = Raise ValueError.
Proof. split; vm_compute; reflexivity. Qed.

(** ** Lines that do not load *)

Definition bad_line (line : str) : Prop :=
  forall rm, load_line rm line = Raise ValueError.

Lemma load_line_result (rm : gmap str str) (line : str) :
  load_line rm line = Raise ValueError \/ exists rm', load_line rm line = Ok rm'.
Proof.
  unfold load_line. destruct (split (strip line)) as [|a [|b [|? ?]]]; eauto.
Qed.

Lemma load_lines_raise (lines : list str) (e : exn) :
  fold_left (fun rm line => do rm <- rm; load_line rm line) lines (Raise e)
  = Raise e.
Proof. induction lines as [|l lines IH]; [reflexivity|exact IH]. Qed.

Lemma load_lines_fail (lines : list str) (line : str) :
  line ∈ lines -> bad_line line ->
  forall rm,
    fold_left (fun rm line => do rm <- rm; load_line rm line) lines (Ok rm)
    = Raise ValueError.
Proof.
  intros Hin Hbad. induction lines as [|l lines IH]; intros rm;
    [inversion Hin|].
  cbn [fold_left bind].
  destruct (load_line_result rm l) as [-> | [rm' Hrm']];
    [apply load_lines_raise|].
  apply elem_of_cons in Hin as [<- | Hin].
  - rewrite Hbad in Hrm'. discriminate.
  - rewrite Hrm'. apply IH, Hin.
Qed.

Lemma universal_newlines_line (w : str) : forall rest,
  exists y, universal_newlines (w ++ c_nl :: rest)
            = y ++ c_nl :: universal_newlines rest.
Proof.
  induction w as [w IH] using (induction_ltof1 _ (@length char)).
  unfold ltof in IH. intros rest.
  destruct w as [|c w]; [exists []; reflexivity|].
  cbn [app universal_newlines].
  destruct (c =? c_cr)%N eqn:Hc.
  - destruct w as [|c' w].
    + exists []. reflexivity.
    + cbn [app]. destruct (c' =? c_nl)%N eqn:Hc'.
      * destruct (IH w ltac:(simpl; lia) rest) as [y ->].
        exists (c_nl :: y). reflexivity.
      * destruct (IH (c' :: w) ltac:(simpl; lia) rest) as [y Hy].
        cbn [app] in Hy. rewrite Hy. exists (c_nl :: y). reflexivity.
  - destruct (IH w ltac:(simpl; lia) rest) as [y ->].
    exists (c :: y). reflexivity.
Qed.

Lemma readlines_nil (s : str) : readlines s = [] -> s = [].
Proof.
  destruct s as [|c s]; [reflexivity|]. cbn [readlines].
  destruct (c =? c_nl)%N; [discriminate|].
  destruct (readlines s); discriminate.
Qed.

Lemma readlines_app_nl (y z : str) :
  readlines (y ++ c_nl :: z) = readlines (y ++ [c_nl]) ++ readlines z.
Proof.
  induction y as [|c y IH]; [reflexivity|].
  cbn [app readlines]. destruct (c =? c_nl)%N; [rewrite IH; reflexivity|].
  rewrite IH. destruct (readlines (y ++ [c_nl])) as [|l ls] eqn:E;
    [|reflexivity].
  apply readlines_nil in E. destruct y; discriminate.
Qed.

(** The lines of the table file end with the lines of what follows any
    number of entries. *)
Lemma lines_after_entries (t : list (char * str)) (rest : str) :
  exists ls,
    readlines (universal_newlines (table_text t ++ rest))
    = ls ++ readlines (universal_newlines rest).
Proof.
  induction t as [|e t [ls IH]]; [exists []; reflexivity|].
  unfold table_text. cbn [map concat]. fold (table_text t).
  replace ((entry_line e ++ table_text t) ++ rest)
    with ((escape e.1 ++ c_sp :: e.2) ++ c_nl :: table_text t ++ rest).
  2:{ unfold entry_line. rewrite <- ?app_assoc. simpl.
      rewrite <- ?app_assoc. reflexivity. }
  destruct (universal_newlines_line (escape e.1 ++ c_sp :: e.2)
              (table_text t ++ rest)) as [y ->].
  rewrite readlines_app_nl, IH.
  exists (readlines (y ++ [c_nl]) ++ ls). rewrite app_assoc. reflexivity.
Qed.

Lemma universal_newlines_bits (k rest : str) :
  Forall is_bit k ->
  universal_newlines (k ++ rest) = k ++ universal_newlines rest.
Proof.
  induction 1 as [|c k Hc Hk IH]; [reflexivity|].
  cbn [app universal_newlines].
  assert (Hcr : (c =? c_cr)%N = false) by (destruct Hc as [-> | ->]; reflexivity).
  rewrite Hcr, IH. reflexivity.
Qed.

Lemma drop_while_bits_line (k : str) :
  Forall is_bit k -> k <> [] ->
  strip (k ++ [c_nl]) = k.
Proof.
  intros Hk Hne. pose proof (bits_word k Hne Hk) as Hw.
  unfold strip. rewrite drop_while_word by assumption.
  rewrite rev_app_distr. cbn [rev app drop_while].
  change (isspace c_nl) with true. cbv iota.
  rewrite <- (app_nil_r (rev k)).
  rewrite drop_while_word by (apply word_rev; assumption).
  rewrite app_nil_r. apply rev_involutive.
Qed.

Lemma blank_symbol_line (c : char) (k : str) :
  isspace c = true -> Forall is_bit k ->
  bad_line (c :: c_sp :: k ++ [c_nl]).
Proof.
  intros Hc Hk rm. unfold load_line.
  assert (Hstrip : strip (c :: c_sp :: k ++ [c_nl]) = strip (k ++ [c_nl])).
  { unfold strip. cbn [drop_while]. rewrite Hc.
    change (isspace c_sp) with true. reflexivity. }
  rewrite Hstrip. destruct k as [|b k]; [reflexivity|].
  rewrite drop_while_bits_line by (auto; discriminate).
  rewrite split_word by (apply bits_word; auto; discriminate). reflexivity.
Qed.

(** The table file does not load when the table has a blank symbol other
    than newline and space. *)
Lemma load_codes_blank_symbol (table : list (char * str)) (c : char) (k : str)
    (rm : gmap str str) :
  (c, k) ∈ table -> Forall is_bit k ->
  isspace c = true -> c <> c_sp -> c <> c_nl ->
  load_codes rm (table_text table) = Raise ValueError.
Proof.
  intros Hin Hk Hc Hsp Hnl.
  apply list_elem_of_split in Hin as (t1 & t2 & ->).
  unfold load_codes.
  assert (Hline : exists line,
    line ∈ readlines (universal_newlines (table_text (t1 ++ (c, k) :: t2)))
    /\ bad_line line).
  { unfold table_text. rewrite map_app, concat_app. cbn [map concat].
    fold (table_text t1). fold (table_text t2).
    destruct (lines_after_entries t1 (entry_line (c, k) ++ table_text t2))
      as [ls ->].
    unfold entry_line, escape. cbn [fst snd].
    apply N.eqb_neq in Hsp as Hsp'. apply N.eqb_neq in Hnl as Hnl'.
    rewrite Hsp', Hnl'.
    destruct (c =? c_cr)%N eqn:Hcr.
    - apply N.eqb_eq in Hcr as ->. exists [c_nl]. split.
      + apply elem_of_app. right. simpl. left.
      + intros rm'. reflexivity.
    - exists (c :: c_sp :: k ++ [c_nl]). split; [|apply blank_symbol_line; auto].
      apply elem_of_app. right.
      replace (([c] ++ [c_sp] ++ k ++ [c_nl]) ++ table_text t2)
        with (c :: c_sp :: k ++ c_nl :: table_text t2)
        by (simpl; rewrite <- ?app_assoc; reflexivity).
      cbn [universal_newlines]. rewrite Hcr.
      change (c_sp =? c_cr)%N with false. cbv iota.
      rewrite universal_newlines_bits by assumption.
      cbn [universal_newlines]. change (c_nl =? c_cr)%N with false. cbv iota.
      change (c :: c_sp :: k ++ c_nl :: universal_newlines (table_text t2))
        with ((c :: c_sp :: k) ++ c_nl :: universal_newlines (table_text t2)).
      rewrite readlines_line; [left|].
      constructor; [exact Hnl|]. constructor; [discriminate|].
      eapply Forall_impl; [exact Hk|]. intros x [-> | ->]; discriminate. }
  destruct Hline as (line & Hin & Hbad).
  apply (load_lines_fail _ line Hin Hbad).
Qed.

(** ** Dictionaries, [Counter] and the code table of a text *)

Lemma dict_set_new {V} (d : list (char * V)) (k : char) (v : V) :
  k ∉ map fst d -> dict_set d k v = d ++ [(k, v)].
Proof.
  induction d as [|[k' v'] d IH]; intros Hk; [reflexivity|].
  simpl in *. apply not_elem_of_cons in Hk as [Hne Hk].
  destruct (decide (k' = k)); [congruence|]. rewrite IH by assumption.
  reflexivity.
Qed.

Lemma dict_set_keys {V} (d : list (char * V)) (k : char) (v : V) :
  map fst (dict_set d k v)
  = if decide (k ∈ map fst d) then map fst d else map fst d ++ [k].
Proof.
  induction d as [|[k' v'] d IH]; [reflexivity|]. simpl.
  destruct (decide (k' = k)) as [-> | Hne].
  - rewrite decide_True by left. reflexivity.
  - simpl. rewrite IH. destruct (decide (k ∈ map fst d)) as [Hin | Hin].
    + rewrite decide_True by (right; exact Hin). reflexivity.
    + rewrite decide_False; [reflexivity|].
      intros [?|?]%elem_of_cons; congruence.
Qed.

Lemma dict_get_elem {V} (d : list (char * V)) (k : char) :
  k ∈ map fst d -> exists v, dict_get d k = Some v /\ (k, v) ∈ d.
Proof.
  induction d as [|[k' v'] d IH]; intros Hk; [inversion Hk|]. simpl in *.
  destruct (decide (k' = k)) as [-> | Hne]; [exists v'; split; [reflexivity|left]|].
  apply elem_of_cons in Hk as [Hk | Hk]; [congruence|].
  destruct (IH Hk) as (v & Hv & Hin). exists v. split; [exact Hv|right; exact Hin].
Qed.

Lemma dict_get_NoDup {V} (d : list (char * V)) (k : char) (v : V) :
  NoDup (map fst d) -> (k, v) ∈ d -> dict_get d k = Some v.
Proof.
  induction d as [|[k' v'] d IH]; intros Hnd Hin; [inversion Hin|].
  simpl in *. apply NoDup_cons in Hnd as [Hk' Hnd].
  apply elem_of_cons in Hin as [Heq | Hin].
  - injection Heq as -> ->. rewrite decide_True by reflexivity. reflexivity.
  - destruct (decide (k' = k)) as [-> | Hne]; [|apply IH; assumption].
    exfalso. apply Hk'. apply list_elem_of_fmap. exists (k, v). auto.
Qed.

Lemma Counter_keys (text : str) :
  NoDup (map fst (Counter text)) /\
  forall c, c ∈ text -> c ∈ map fst (Counter text).
Proof.
  unfold Counter.
  assert (H : forall d,
    NoDup (map fst d) ->
    let r := fold_left
      (fun d c => dict_set d c (default 0%Z (dict_get d c) + 1)%Z) text d in
    NoDup (map fst r) /\
    forall c, c ∈ text \/ c ∈ map fst d -> c ∈ map fst r).
  { induction text as [|x text IH]; intros d Hd; cbn [fold_left].
    - split; [exact Hd|]. intros c [Hc | Hc]; [inversion Hc|exact Hc].
    - destruct (IH (dict_set d x (default 0%Z (dict_get d x) + 1)%Z))
        as [Hnd Hall].
      + rewrite dict_set_keys. destruct (decide (x ∈ map fst d)); [exact Hd|].
        apply NoDup_app. split; [exact Hd|]. split.
        * intros y Hy [->|Hy']%elem_of_cons; [contradiction|inversion Hy'].
        * apply NoDup_singleton.
      + split; [exact Hnd|]. intros c Hc. apply Hall.
        rewrite dict_set_keys.
        destruct Hc as [[-> | Hc]%elem_of_cons | Hc].
        * right. destruct (decide (x ∈ map fst d)); [assumption|].
          apply elem_of_app. right. left.
        * left. exact Hc.
        * right. destruct (decide (x ∈ map fst d)); [assumption|].
          apply elem_of_app. left. exact Hc. }
  destruct (H [] (NoDup_nil_2 : NoDup (map fst (@nil (char * Z))))) as [H1 H2].
  split; [exact H1|]. intros c Hc. apply H2. left. exact Hc.
Qed.

Lemma fold_dict_set_NoDup (l : list (char * str)) : forall d,
  NoDup (map fst (d ++ l)) ->
  fold_left (fun d e => dict_set d e.1 e.2) l d = d ++ l.
Proof.
  induction l as [|[c k] l IH]; intros d Hnd; [rewrite app_nil_r; reflexivity|].
  cbn [fold_left fst snd]. rewrite dict_set_new.
  - rewrite IH; rewrite <- app_assoc; [reflexivity|exact Hnd].
  - rewrite map_app in Hnd. apply NoDup_app in Hnd as (_ & Hdis & _).
    intros Hc. apply (Hdis c Hc). left.
Qed.

(** The bits [get_encoded_text] concatenates. *)
Definition encode (table : list (char * str)) (text : str) : str :=
  concat (map (fun c => default [] (dict_get table c)) text).

Lemma get_encoded_text_encode (self : HuffmanCoding) (text : str) :
  (forall c, c ∈ text -> c ∈ map fst (codes self)) ->
  get_encoded_text self text = Ok (encode (codes self) text).
Proof.
  unfold get_encoded_text, encode. intros Hall.
  assert (H : forall acc,
    fold_left
      (fun encoded_text character =>
         do encoded_text <- encoded_text;
         match dict_get (codes self) character with
         | Some code => Ok (encoded_text ++ code)
         | None => Raise KeyError
         end) text (Ok acc)
    = Ok (acc ++ concat (map (fun c => default [] (dict_get (codes self) c))
                           text))).
  { induction text as [|c text IH]; intros acc; cbn [fold_left map concat bind].
    - rewrite app_nil_r. reflexivity.
    - destruct (dict_get_elem (codes self) c) as (k & Hk & _);
        [apply Hall; left|].
      rewrite Hk. cbn [default]. rewrite IH, <- app_assoc; [reflexivity|].
      intros c' Hc'. apply Hall. right. exact Hc'. }
  apply (H []).
Qed.

Lemma encode_bits (table : list (char * str)) (text : str) :
  (forall c k, (c, k) ∈ table -> Forall is_bit k) ->
  Forall is_bit (encode table text).
Proof.
  intros Hbits. unfold encode. induction text as [|c text IH];
    [constructor|].
  cbn [map concat]. apply Forall_app. split; [|exact IH].
  destruct (dict_get table c) as [k|] eqn:Hk; [|constructor]. simpl.
  assert (Hin : (c, k) ∈ table).
  { clear -Hk. induction table as [|[c' k'] t IHt]; [discriminate|].
    simpl in Hk. destruct (decide (c' = c)) as [-> | Hne].
    - injection Hk as ->. left.
    - right. apply IHt, Hk. }
  apply (Hbits c k Hin).
Qed.

(** ** Packing into bytes and back *)

Lemma byte_round_trip (chunk : str) :
  length chunk = 8 -> Forall is_bit chunk ->
  exists v, int2 chunk = Ok v /\ (v <? 256)%N = true /\
            rjust 8 c0 (bin v) = chunk.
Proof.
  intros Hlen Hbits.
  do 8 (destruct chunk as [|? chunk]; [discriminate|]).
  destruct chunk; [|discriminate]. clear Hlen.
  repeat match goal with
         | H : Forall _ (_ :: _) |- _ =>
             apply List.Forall_cons_iff in H as [[-> | ->] H]
         end;
    eexists; (split; [reflexivity|split; reflexivity]).
Qed.

Lemma bits_of_bytes_concat (bs : list N) :
  bits_of_bytes bs = concat (map (fun byte => rjust 8 c0 (bin byte)) bs).
Proof.
  unfold bits_of_bytes.
  assert (H : forall acc,
    fold_left (fun bit_string byte => bit_string ++ rjust 8 c0 (bin byte)) bs acc
    = acc ++ concat (map (fun byte => rjust 8 c0 (bin byte)) bs)).
  { induction bs as [|b bs IH]; intros acc; cbn [fold_left map concat].
    - rewrite app_nil_r. reflexivity.
    - rewrite IH, <- app_assoc. reflexivity. }
  apply (H []).
Qed.

Lemma byte_loop_spec (full : str) (n : nat) : forall (m : nat) (acc : list N),
  length full = 8 * (m + n) -> Forall is_bit full ->
  exists b,
    fold_left
      (fun b i =>
         do b <- b; do v <- int2 (slice full i (i + 8)); bytearray_append b v)
      (map (fun j => 0 + j * 8) (seq m n)) (Ok acc)
    = Ok (acc ++ b) /\
    concat (map (fun byte => rjust 8 c0 (bin byte)) b) = skipn (8 * m) full.
Proof.
  induction n as [|n IH]; intros m acc Hlen Hbits.
  - exists []. rewrite app_nil_r. split; [reflexivity|].
    rewrite skipn_all2 by lia. reflexivity.
  - cbn [seq map fold_left bind].
    assert (Hslice : slice full (0 + m * 8) (0 + m * 8 + 8)
                     = firstn 8 (skipn (8 * m) full)).
    { unfold slice. f_equal; [lia|f_equal; lia]. }
    rewrite Hslice.
    destruct (byte_round_trip (firstn 8 (skipn (8 * m) full)))
      as (v & Hv & Hlt & Hback).
    { rewrite length_firstn, length_skipn. lia. }
    { apply Forall_take, Forall_drop, Hbits. }
    rewrite Hv. cbn [bind]. unfold bytearray_append at 2. rewrite Hlt.
    destruct (IH (S m) (acc ++ [v])) as (b & Hb & Hcat); [lia|exact Hbits|].
    exists (v :: b). rewrite Hb, <- app_assoc. split; [reflexivity|].
    cbn [map concat]. rewrite Hback, Hcat.
    replace (8 * S m) with (8 + 8 * m) by lia.
    rewrite <- skipn_skipn. apply firstn_skipn.
Qed.

Lemma get_byte_array_bits (s : str) :
  length s mod 8 = 0 -> Forall is_bit s ->
  exists b, get_byte_array s = Ok b /\ bits_of_bytes b = s.
Proof.
  intros Hmod Hbits. unfold get_byte_array. rewrite Hmod. cbn [Nat.eqb negb].
  unfold range3.
  pose proof (Nat.div_mod_eq (length s) 8) as Hdiv. rewrite Hmod in Hdiv.
  assert (Hn : (length s - 0 + 8 - 1) / 8 = length s / 8).
  { replace (length s - 0 + 8 - 1) with (7 + (length s / 8) * 8) by lia.
    rewrite Nat.div_add by lia. reflexivity. }
  rewrite Hn.
  destruct (byte_loop_spec s (length s / 8) 0 []) as (b & Hb & Hcat);
    [lia|exact Hbits|].
  exists b. split; [exact Hb|]. rewrite bits_of_bytes_concat. exact Hcat.
Qed.

Lemma format_08b_bits (p : nat) :
  1 <= p <= 8 -> Forall is_bit (format_08b (N.of_nat p)).
Proof.
  intros Hp.
  assert (Hc : p = 1 \/ p = 2 \/ p = 3 \/ p = 4 \/ p = 5 \/ p = 6 \/ p = 7 \/ p = 8)
    by lia.
  repeat (destruct Hc as [-> | Hc]; [solve_bits|]). subst; solve_bits.
Qed.

Lemma pad_encoded_text_bits (s : str) :
  Forall is_bit s -> Forall is_bit (pad_encoded_text s).
Proof.
  intros Hs. unfold pad_encoded_text.
  apply Forall_app. split; [apply format_08b_bits, extra_padding_range|].
  apply Forall_app. split; [exact Hs|].
  apply Forall_forall. intros c Hc%list_elem_of_In%repeat_spec. left. exact Hc.
Qed.

Lemma remove_padding_pad (s : str) :
  remove_padding (pad_encoded_text s) = Ok s.
Proof.
  pose proof (extra_padding_range (length s)) as Hp.
  unfold remove_padding, pad_encoded_text.
  rewrite firstn_app, firstn_all2
    by (rewrite format_08b_length by exact Hp; lia).
  rewrite format_08b_length by exact Hp.
  cbn [Nat.sub firstn]. rewrite app_nil_r, format_08b_int2 by exact Hp.
  cbn [bind]. rewrite skipn_app, skipn_all2
    by (rewrite format_08b_length by exact Hp; lia).
  rewrite format_08b_length by exact Hp. cbn [Nat.sub skipn app].
  rewrite Nat2N.id. unfold drop_last.
  destruct (8 - length s mod 8) as [|p] eqn:E; [lia|].
  rewrite !skipn_O, length_app, repeat_length.
  replace (length s + S p - S p) with (length s) by lia.
  rewrite firstn_app, Nat.sub_diag, firstn_all, firstn_O, app_nil_r.
  reflexivity.
Qed.

(** ** [compress] on a text that is not empty *)

Lemma compress_nonempty (self : HuffmanCoding) (text : str)
    (codes_file : option str) :
  text <> [] ->
  compress self text codes_file
  = (let self := make_frequency_dict self text in
     let self := make_heap self (frequency self) in
     do self <- merge_nodes self;
     do self <- make_codes self;
     do encoded_text <- get_encoded_text self text;
     let padded_encoded_text := pad_encoded_text encoded_text in
     do b <- get_byte_array padded_encoded_text;
     Ok (self, b, Some (output_codes self))).
Proof. destruct text; [congruence|reflexivity]. Qed.

(** The object after [make_codes], for the tree [root]. *)
Definition coded (text : str) (root : HeapNode) : HuffmanCoding :=
  fold_left set_code (paths root [])
    (mkHuffmanCoding [] (Counter text) [] ∅).

Lemma compress_spec (text : str) (codes_file : option str) :
  text <> [] ->
  exists root b,
    wf_tree root /\ leaf_items root ≡ₚ Counter text /\
    codes (coded text root) = paths root [] /\
    NoDup (map fst (paths root [])) /\
    (forall c, c ∈ text -> c ∈ map fst (paths root [])) /\
    compress new_HuffmanCoding text codes_file
    = Ok (coded text root, b, Some (output_codes (coded text root))) /\
    bits_of_bytes b = pad_encoded_text (encode (paths root []) text).
Proof.
  intros Hne. destruct (Counter_keys text) as [Hnd Hall].
  destruct (build_tree (mkHuffmanCoding [] (Counter text) [] ∅) (Counter text))
    as (root & Hm & Hwf & Hit & _); [reflexivity| |].
  { destruct text as [|c t]; [congruence|]. intros Hnil.
    specialize (Hall c ltac:(left)). rewrite Hnil in Hall. inversion Hall. }
  assert (Hkeys : map fst (paths root []) ≡ₚ map fst (Counter text)).
  { rewrite paths_symbols. apply Permutation_map, Hit. }
  assert (Hnd' : NoDup (map fst (paths root [])))
    by (rewrite Hkeys; exact Hnd).
  assert (Hall' : forall c, c ∈ text -> c ∈ map fst (paths root [])).
  { intros c Hc. rewrite Hkeys. apply Hall, Hc. }
  assert (Hcodes : codes (coded text root) = paths root []).
  { unfold coded.
    destruct (fold_set_code_fields (paths root [])
                (mkHuffmanCoding [] (Counter text) [] ∅)) as (_ & _ & -> & _).
    cbn [codes]. apply (fold_dict_set_NoDup _ []). exact Hnd'. }
  assert (Hbits : Forall is_bit (encode (paths root []) text)).
  { apply encode_bits. intros c k Hin.
    apply paths_extend in Hin as (s & -> & Hs). exact Hs. }
  destruct (get_byte_array_bits (pad_encoded_text (encode (paths root []) text)))
    as (b & Hb & Hback);
    [apply pad_encoded_text_mod8|apply pad_encoded_text_bits, Hbits|].
  exists root, b. repeat (split; [assumption|]).
  split; [|exact Hback].
  rewrite compress_nonempty by exact Hne. cbv zeta.
  unfold make_frequency_dict. cbn [heap frequency codes reverse_mapping
                                   new_HuffmanCoding].
  rewrite Hm. cbn [bind]. unfold make_codes. cbn [heap].
  rewrite heappop_singleton. cbn [bind frequency codes reverse_mapping].
  rewrite make_codes_helper_paths. fold (coded text root).
  rewrite get_encoded_text_encode by (rewrite Hcodes; exact Hall').
  cbn [bind]. rewrite Hcodes, Hb. reflexivity.
Qed.

Lemma decompress_after_compress (h : HuffmanCoding) (b : list N) (s : str)
    (codes_file : option str) :
  bits_of_bytes b = pad_encoded_text s ->
  decompress h b codes_file = decode_text h s codes_file.
Proof.
  intros Hb. unfold decompress. rewrite Hb, remove_padding_pad. reflexivity.
Qed.

(** [C9] When the text has a blank symbol other than space and newline
    (a tab, say), [compress] succeeds and writes the table file, but the
    line of that symbol does not split into two fields: [decode_text]
    raises [ValueError] on that file whatever the bits, and so does the
    program. *)
Theorem blank_symbol_fails (text : str) (c : char) (codes_file : option str) :
  c ∈ text -> isspace c = true -> c <> c_sp -> c <> c_nl ->
  exists self b,
    compress new_HuffmanCoding text codes_file
    = Ok (self, b, Some (output_codes self)) /\
    (forall h encoded_text,
       decode_text h encoded_text (Some (output_codes self))
       = Raise ValueError) /\
    main text codes_file = Raise ValueError /\
    roundtrip_fresh text codes_file = Raise ValueError.
Proof.
  intros Hc Hsp Hnsp Hnnl.
  destruct (compress_spec text codes_file)
    as (root & b & Hwf & Hit & Hcodes & Hnd & Hall & Hcomp & Hback).
  { intros ->. inversion Hc. }
  exists (coded text root), b. split; [exact Hcomp|].
  assert (Hdec : forall h encoded_text,
    decode_text h encoded_text (Some (output_codes (coded text root)))
    = Raise ValueError).
  { intros h enc. unfold decode_text.
    rewrite output_codes_table_text, Hcodes.
    destruct (dict_get_elem (paths root []) c (Hall c Hc)) as (k & _ & Hin).
    rewrite (load_codes_blank_symbol (paths root []) c k); auto.
    apply paths_extend in Hin as (s & -> & Hs). exact Hs. }
  split; [exact Hdec|].
  unfold main, roundtrip_fresh. rewrite Hcomp. cbn [bind].
  rewrite !(decompress_after_compress _ b _ _ Hback), !Hdec. split; reflexivity.
Qed.

Lemma blank_symbol_fails_witness :
  exists self b,
    compress new_HuffmanCoding [97; 9; 98]%N None
    = Ok (self, b, Some (output_codes self)) /\
    (forall h encoded_text,
       decode_text h encoded_text (Some (output_codes self))
       = Raise ValueError) /\
    main [97; 9; 98]%N None = Raise ValueError /\
    roundtrip_fresh [97; 9; 98]%N None = Raise ValueError.
Proof.
  apply (blank_symbol_fails [97; 9; 98]%N 9%N None).
  - right. left.
  - reflexivity.
  - discriminate.
  - discriminate.
Defined.

(** ** The comparisons of a run are calls of [__lt__] *)

(** A logged computation returns what [r] does, and every comparison it
    makes is a call of [__lt__]. *)
Definition agrees {A} (m : logged A) (r : result A) : Prop :=
  snd m = r /\ Forall (eq Py_LT) (fst m).

Lemma agrees_ret {A} (a : A) : agrees (lret a) (Ok a).
Proof. split; [reflexivity|constructor]. Qed.

Lemma agrees_lift {A} (r : result A) : agrees (lift r) r.
Proof. split; [reflexivity|constructor]. Qed.

Lemma agrees_bind {A B} (m : logged A) (r : result A)
    (k : A -> logged B) (k' : A -> result B) :
  agrees m r -> (forall a, agrees (k a) (k' a)) ->
  agrees (lbind m k) (bind r k').
Proof.
  destruct m as [calls [a | e]]; intros [<- Hcalls] Hk; cbn [snd fst] in *.
  - unfold lbind. cbn [bind]. destruct (Hk a) as [Hr Hcalls'].
    destruct (k a) as [calls' r']. cbn [snd fst] in *.
    split; [exact Hr|]. apply Forall_app. auto.
  - split; [reflexivity|exact Hcalls].
Qed.

Lemma agrees_bind_Ok {A B} (m : logged A) (a : A) (k : A -> logged B)
    (v : B) :
  agrees m (Ok a) -> agrees (k a) (Ok v) -> agrees (lbind m k) (Ok v).
Proof.
  destruct m as [calls [a' | e]]; intros [Hr Hcalls] [Hv Hcalls'];
    cbn [snd fst] in *; [|discriminate].
  injection Hr as ->. unfold lbind.
  destruct (k a) as [calls' r']. cbn [snd fst] in *.
  split; [exact Hv|]. apply Forall_app. auto.
Qed.

Section heapq_cmp_agrees.
Context {A : Type} (lt : A -> A -> bool)
  (richcompare : cmp_op -> A -> A -> result bool).
Hypothesis richcompare_lt : forall a b, richcompare Py_LT a b = Ok (lt a b).

Lemma compare_lt_agrees (a b : A) :
  agrees (compare richcompare Py_LT a b) (Ok (lt a b)).
Proof.
  split; [apply richcompare_lt|]. repeat constructor.
Qed.

Lemma _siftdown_loop_cmp_agrees (fuel : nat) :
  forall heap newitem startpos pos,
  agrees (_siftdown_loop_cmp richcompare fuel heap newitem startpos pos)
    (Ok (_siftdown_loop lt fuel heap newitem startpos pos)).
Proof.
  induction fuel as [|fuel IH]; intros heap newitem startpos pos;
    cbn [_siftdown_loop_cmp _siftdown_loop]; [apply agrees_ret|].
  destruct (startpos <? pos); [|apply agrees_ret].
  destruct (heap !! ((pos - 1) / 2)) as [parent|]; [|apply agrees_ret].
  eapply agrees_bind_Ok; [apply compare_lt_agrees|]. cbn beta.
  destruct (lt newitem parent); [apply IH|apply agrees_ret].
Qed.

Lemma _siftdown_cmp_agrees (heap : list A) (startpos pos : nat) :
  agrees (_siftdown_cmp richcompare heap startpos pos)
    (Ok (_siftdown lt heap startpos pos)).
Proof.
  unfold _siftdown_cmp, _siftdown.
  destruct (heap !! pos) as [newitem|]; [|apply agrees_ret].
  eapply agrees_bind_Ok; [apply _siftdown_loop_cmp_agrees|].
  destruct (_siftdown_loop lt pos heap newitem startpos pos) as [h p].
  apply agrees_ret.
Qed.

Lemma lt_at_cmp_agrees (heap : list A) (i j : nat) :
  agrees (lt_at_cmp richcompare heap i j) (Ok (lt_at lt heap i j)).
Proof.
  unfold lt_at_cmp, lt_at.
  destruct (heap !! i) as [a|]; [|apply agrees_ret].
  destruct (heap !! j) as [b|]; [|apply agrees_ret].
  apply compare_lt_agrees.
Qed.

Lemma _siftup_loop_cmp_agrees (fuel : nat) :
  forall heap endpos pos,
  agrees (_siftup_loop_cmp richcompare fuel heap endpos pos)
    (Ok (_siftup_loop lt fuel heap endpos pos)).
Proof.
  induction fuel as [|fuel IH]; intros heap endpos pos;
    cbn [_siftup_loop_cmp _siftup_loop]; [apply agrees_ret|].
  destruct (2 * pos + 1 <? endpos); [|apply agrees_ret].
  eapply (agrees_bind_Ok _
            (if (2 * pos + 1 + 1 <? endpos)
                && negb (lt_at lt heap (2 * pos + 1) (2 * pos + 1 + 1))
             then 2 * pos + 1 + 1 else 2 * pos + 1)).
  - destruct (2 * pos + 1 + 1 <? endpos); [|apply agrees_ret].
    eapply agrees_bind_Ok; [apply lt_at_cmp_agrees|].
    rewrite andb_true_l. apply agrees_ret.
  - cbn beta.
    destruct (heap !! _) as [child|]; [apply IH|apply agrees_ret].
Qed.

Lemma _siftup_cmp_agrees (heap : list A) (pos : nat) :
  agrees (_siftup_cmp richcompare heap pos) (Ok (_siftup lt heap pos)).
Proof.
  unfold _siftup_cmp, _siftup.
  destruct (heap !! pos) as [newitem|]; [|apply agrees_ret].
  eapply agrees_bind_Ok; [apply _siftup_loop_cmp_agrees|].
  destruct (_siftup_loop lt (length heap - pos) heap (length heap) pos)
    as [h p].
  apply _siftdown_cmp_agrees.
Qed.

Lemma heappush_cmp_agrees (heap : list A) (item : A) :
  agrees (heappush_cmp richcompare heap item) (Ok (heappush lt heap item)).
Proof. apply _siftdown_cmp_agrees. Qed.

Lemma heappop_cmp_agrees (heap : list A) :
  agrees (heappop_cmp richcompare heap) (heappop lt heap).
Proof.
  unfold heappop_cmp, heappop.
  destruct (last heap) as [lastelt|]; [|apply agrees_lift].
  destruct (removelast heap) as [|returnitem rest]; [apply agrees_ret|].
  eapply agrees_bind_Ok; [apply _siftup_cmp_agrees|apply agrees_ret].
Qed.
End heapq_cmp_agrees.

Section compress_cmp_agrees.
Context (richcompare : cmp_op -> HeapNode -> HeapNode -> result bool).
Hypothesis richcompare_lt :
  forall a b, richcompare Py_LT a b = Ok (HeapNode_lt a b).

Lemma make_heap_cmp_agrees (freq : list (char * Z)) :
  forall self,
  agrees (make_heap_cmp richcompare self freq) (Ok (make_heap self freq)).
Proof.
  unfold make_heap_cmp, make_heap.
  assert (H : forall m self, agrees m (Ok self) ->
    agrees
      (fold_left
         (fun self '(key, f) =>
            (do self <- self;
             let node := new_HeapNode (Some key) f in
             do h <- heappush_cmp richcompare (heap self) node;
             lret (mkHuffmanCoding h (frequency self) (codes self)
                     (reverse_mapping self)))%logged)
         freq m)
      (Ok (fold_left
             (fun self '(key, f) =>
                let node := new_HeapNode (Some key) f in
                mkHuffmanCoding (heappush HeapNode_lt (heap self) node)
                  (frequency self) (codes self) (reverse_mapping self))
             freq self))).
  { induction freq as [|[key f] freq IH]; intros m self Hm;
      cbn [fold_left]; [exact Hm|].
    apply IH. eapply agrees_bind_Ok; [exact Hm|]. cbn beta zeta.
    eapply agrees_bind_Ok;
      [apply (heappush_cmp_agrees HeapNode_lt), richcompare_lt|].
    apply agrees_ret. }
  intros self. apply H, agrees_ret.
Qed.

Lemma merge_step_cmp_agrees (heap : list HeapNode) :
  agrees (merge_step_cmp richcompare heap) (merge_step heap).
Proof.
  unfold merge_step_cmp, merge_step.
  apply agrees_bind;
    [apply (heappop_cmp_agrees HeapNode_lt), richcompare_lt|].
  intros [node1 h1].
  apply agrees_bind;
    [apply (heappop_cmp_agrees HeapNode_lt), richcompare_lt|].
  intros [node2 h2]. cbn zeta.
  apply (heappush_cmp_agrees HeapNode_lt), richcompare_lt.
Qed.

Lemma merge_nodes_loop_cmp_agrees (fuel : nat) :
  forall heap,
  agrees (merge_nodes_loop_cmp richcompare fuel heap)
    (merge_nodes_loop fuel heap).
Proof.
  induction fuel as [|fuel IH]; intros heap;
    cbn [merge_nodes_loop_cmp merge_nodes_loop]; [apply agrees_ret|].
  destruct (1 <? length heap); [|apply agrees_ret].
  apply agrees_bind; [apply merge_step_cmp_agrees|exact IH].
Qed.

Lemma merge_nodes_cmp_agrees (self : HuffmanCoding) :
  agrees (merge_nodes_cmp richcompare self) (merge_nodes self).
Proof.
  unfold merge_nodes_cmp, merge_nodes.
  apply agrees_bind; [apply merge_nodes_loop_cmp_agrees|].
  intros h. apply agrees_ret.
Qed.

Lemma make_codes_cmp_agrees (self : HuffmanCoding) :
  agrees (make_codes_cmp richcompare self) (make_codes self).
Proof.
  unfold make_codes_cmp, make_codes.
  apply agrees_bind;
    [apply (heappop_cmp_agrees HeapNode_lt), richcompare_lt|].
  intros [root h]. apply agrees_ret.
Qed.

Lemma compress_cmp_agrees (self : HuffmanCoding) (text : str)
    (codes_file : option str) :
  agrees (compress_cmp richcompare self text codes_file)
    (compress self text codes_file).
Proof.
  unfold compress_cmp, compress. destruct text as [|c t]; [apply agrees_ret|].
  cbn zeta.
  eapply (agrees_bind _ (Ok _) _
            (fun self => bind (merge_nodes self) _));
    [apply make_heap_cmp_agrees|].
  intros self1. apply agrees_bind; [apply merge_nodes_cmp_agrees|].
  intros self2. apply agrees_bind; [apply make_codes_cmp_agrees|].
  intros self3. apply agrees_bind; [apply agrees_lift|].
  intros encoded_text. cbn zeta. apply agrees_bind; [apply agrees_lift|].
  intros b. apply agrees_ret.
Qed.
End compress_cmp_agrees.

Lemma HeapNode_richcompare_lt (a b : HeapNode) :
  HeapNode_richcompare Py_LT a b = Ok (HeapNode_lt a b).
Proof. reflexivity. Qed.

Lemma compress_returns (text : str) (codes_file : option str) :
  exists h b file,
    compress new_HuffmanCoding text codes_file = Ok (h, b, file).
Proof.
  destruct text as [|c t] eqn:E.
  - eexists _, _, _. reflexivity.
  - destruct (compress_spec (c :: t) codes_file)
      as (root & b & _ & _ & _ & _ & _ & Hcomp & _); [discriminate|].
    eexists _, _, _. exact Hcomp.
Qed.

(** [C10] [HeapNode.__eq__] reads [self._class_], which no heap node
    has ([__class__] it has), so it returns [False] for a falsy argument
    and raises [AttributeError] for every other one, a heap node
    included; [a == b] on two heap nodes raises. In a run of [compress]
    with the comparisons of the node class, every comparison [heapq]
    makes is a call of [__lt__], none of [__eq__]: the run ends normally
    with the result of [compress], and it does so whatever [__eq__]
    does. *)
Theorem HeapNode_eq_unreached (self other : HeapNode) (o : pyobj)
    (text : str) (codes_file : option str) :
  HeapNode_getattr self "_class_" = Raise AttributeError /\
  HeapNode_getattr self "__class__" = Ok (PyClass "HeapNode") /\
  HeapNode_eq self o
  = (if truthy o then Raise AttributeError else Ok false) /\
  HeapNode_eq self (PyNode other) = Raise AttributeError /\
  HeapNode_eq self PyNone = Ok false /\
  compare HeapNode_richcompare Py_EQ self other
  = ([Py_EQ], Raise AttributeError) /\
  exists h b file,
    compress new_HuffmanCoding text codes_file = Ok (h, b, file) /\
    snd (compress_cmp HeapNode_richcompare new_HuffmanCoding text codes_file)
    = Ok (h, b, file) /\
    Forall (eq Py_LT)
      (fst (compress_cmp HeapNode_richcompare new_HuffmanCoding text
              codes_file)) /\
    (Py_EQ ∉ fst (compress_cmp HeapNode_richcompare new_HuffmanCoding text
                    codes_file)) /\
    forall richcompare,
      (forall a b, richcompare Py_LT a b = Ok (HeapNode_lt a b)) ->
      snd (compress_cmp richcompare new_HuffmanCoding text codes_file)
      = Ok (h, b, file) /\
      (Py_EQ ∉ fst (compress_cmp richcompare new_HuffmanCoding text
                      codes_file)).
Proof.
  assert (Hattr : HeapNode_getattr self "_class_" = Raise AttributeError).
  { destruct self as [[c|] f [l|] [r|]]; reflexivity. }
  assert (Heq : forall o', truthy o' = true ->
                HeapNode_eq self o' = Raise AttributeError).
  { intros o' Ho. unfold HeapNode_eq. rewrite Ho, Hattr. reflexivity. }
  split; [exact Hattr|].
  split; [destruct self as [[c|] f [l|] [r|]]; reflexivity|].
  split.
  { destruct (truthy o) eqn:Ho; [apply Heq, Ho|].
    unfold HeapNode_eq. rewrite Ho. reflexivity. }
  split; [apply Heq; reflexivity|]. split; [reflexivity|].
  split; [unfold compare, HeapNode_richcompare; rewrite Heq; reflexivity|].
  destruct (compress_returns text codes_file) as (h & b & file & Hcomp).
  exists h, b, file. split; [exact Hcomp|].
  assert (Hany : forall richcompare,
    (forall a b, richcompare Py_LT a b = Ok (HeapNode_lt a b)) ->
    snd (compress_cmp richcompare new_HuffmanCoding text codes_file)
    = Ok (h, b, file) /\
    Forall (eq Py_LT)
      (fst (compress_cmp richcompare new_HuffmanCoding text codes_file))).
  { intros richcompare Hlt.
    destruct (compress_cmp_agrees richcompare Hlt new_HuffmanCoding text
                codes_file) as [Hr Hcalls].
    rewrite Hr. auto. }
  assert (Hno : forall calls, Forall (eq Py_LT) calls -> Py_EQ ∉ calls).
  { intros calls Hcalls Hin.
    rewrite Forall_forall in Hcalls. specialize (Hcalls _ Hin).
    discriminate. }
  destruct (Hany HeapNode_richcompare HeapNode_richcompare_lt)
    as [Hr Hcalls].
  split; [exact Hr|]. split; [exact Hcalls|]. split; [apply Hno, Hcalls|].
  intros richcompare Hlt. destruct (Hany richcompare Hlt) as [Hr' Hcalls'].
  split; [exact Hr'|apply Hno, Hcalls'].
Qed.

(** The run on "abracadabra", with the class as it is and with an
    [__eq__] that compares the weights. *)
Lemma HeapNode_eq_unreached_witness :
  HeapNode_eq (new_HeapNode (Some 97%N) 5) (PyNode (new_HeapNode (Some 98%N) 2))
  = Raise AttributeError /\
  exists h b file,
    compress new_HuffmanCoding (str_of "abracadabra") None = Ok (h, b, file) /\
    snd (compress_cmp HeapNode_richcompare new_HuffmanCoding
           (str_of "abracadabra") None)
    = Ok (h, b, file) /\
    (Py_EQ ∉ fst (compress_cmp HeapNode_richcompare new_HuffmanCoding
                    (str_of "abracadabra") None)) /\
    snd (compress_cmp
           (fun op a b =>
              match op with
              | Py_LT => Ok (HeapNode_lt a b)
              | Py_EQ => Ok (node_freq a =? node_freq b)%Z
              end)
           new_HuffmanCoding (str_of "abracadabra") None)
    = Ok (h, b, file).
Proof.
  destruct (HeapNode_eq_unreached
              (new_HeapNode (Some 97%N) 5) (new_HeapNode (Some 98%N) 2)
              PyNone (str_of "abracadabra") None)
    as (_ & _ & _ & Heq & _ & _ & h & b & file & Hc & Hr & _ & Hno & Hany).
  split; [exact Heq|]. exists h, b, file.
  split; [exact Hc|]. split; [exact Hr|]. split; [exact Hno|].
  apply (Hany (fun op a b =>
                 match op with
                 | Py_LT => Ok (HeapNode_lt a b)
                 | Py_EQ => Ok (node_freq a =? node_freq b)%Z
                 end)).
  intros a b'. reflexivity.
Defined.

(** ** Decoding *)

Lemma dict_set_keys_from {V} (d : list (char * V)) (k c : char) (v : V) :
  c ∈ map fst (dict_set d k v) -> c = k \/ c ∈ map fst d.
Proof.
  rewrite dict_set_keys. destruct (decide (k ∈ map fst d)); [auto|].
  intros [H | H]%elem_of_app; [auto|].
  apply list_elem_of_singleton in H. auto.
Qed.

Lemma Counter_keys_text (text : str) (c : char) :
  c ∈ map fst (Counter text) -> c ∈ text.
Proof.
  unfold Counter.
  assert (H : forall d,
    c ∈ map fst (fold_left
      (fun d c => dict_set d c (default 0%Z (dict_get d c) + 1)%Z) text d) ->
    c ∈ text \/ c ∈ map fst d).
  { induction text as [|x text IH]; intros d Hc; cbn [fold_left] in Hc.
    - right. exact Hc.
    - apply IH in Hc as [Hc | Hc]; [left; right; exact Hc|].
      apply dict_set_keys_from in Hc as [-> | Hc]; [left; left|right; exact Hc]. }
  intros Hc. apply H in Hc as [Hc | Hc]; [exact Hc|inversion Hc].
Qed.

Lemma two_elements {A} (l : list A) (x y : A) :
  x ∈ l -> y ∈ l -> x <> y -> 2 <= length l.
Proof.
  destruct l as [|a [|b l]]; simpl; intros Hx Hy Hne; [inversion Hx| |lia].
  apply list_elem_of_singleton in Hx, Hy. congruence.
Qed.

Lemma codes_nonempty (root : HeapNode) (c : char) (k : str) :
  wf_tree root -> 2 <= length (leaf_items root) ->
  (c, k) ∈ paths root [] -> k <> [].
Proof.
  intros Hwf Hlen Hin. destruct Hwf as [c' f|f l r Hl Hr].
  - simpl in Hlen. lia.
  - cbn [paths app] in Hin. apply elem_of_app in Hin as [Hin | Hin];
      apply paths_extend in Hin as (s & -> & _); discriminate.
Qed.

Lemma codes_injective (table : list (char * str)) (c1 c2 : char) (k : str) :
  pairwise_free table -> (c1, k) ∈ table -> (c2, k) ∈ table -> c1 = c2.
Proof.
  intros Hfree H1 H2. destruct (decide (c1 = c2)) as [|Hne]; [assumption|].
  exfalso.
  apply (pairwise_free_elem table (c1, k) (c2, k) Hfree H1 H2);
    [congruence|reflexivity].
Qed.

Definition decode_step (rm : gmap str str) (st : str * str) (bit : char)
    : str * str :=
  let '(current_code, decoded_text) := st in
  let current_code := current_code ++ [bit] in
  match rm !! current_code with
  | Some character => ([], decoded_text ++ unescape character)
  | None => (current_code, decoded_text)
  end.

Lemma decode_bits_fold (rm : gmap str str) (encoded_text : str) :
  decode_bits rm encoded_text = fold_left (decode_step rm) encoded_text ([], []).
Proof.
  unfold decode_bits. generalize (@nil char, @nil char).
  induction encoded_text as [|bit s IH]; intros st; [reflexivity|].
  cbn [fold_left]. rewrite IH. destruct st. reflexivity.
Qed.

Section greedy.
Context (table : list (char * str)) (rm : gmap str str).
Hypothesis rm_codes :
  forall c k, (c, k) ∈ table -> rm !! k = Some (escape c).
Hypothesis rm_only_codes :
  forall k, (forall c, (c, k) ∉ table) -> rm !! k = None.
Hypothesis table_free : pairwise_free table.

(** Reading the rest of a code: nothing matches before its last bit. *)
Lemma decode_code (c : char) (k : str) :
  (c, k) ∈ table ->
  forall suf pre, k = pre ++ suf -> suf <> [] ->
  forall dec rest,
    fold_left (decode_step rm) (suf ++ rest) (pre, dec)
    = fold_left (decode_step rm) rest ([], dec ++ [c]).
Proof.
  intros Hin suf. induction suf as [|b suf IH]; intros pre Hk Hne dec rest;
    [congruence|].
  cbn [app fold_left decode_step].
  destruct suf as [|b' suf].
  - rewrite <- Hk.
    match goal with
    | |- context [match ?x with _ => _ end] =>
        replace x with (Some (escape c))
          by (symmetry; exact (rm_codes c k Hin))
    end.
    rewrite unescape_escape. reflexivity.
  - match goal with
    | |- context [match ?x with _ => _ end] =>
        replace x with (@None str)
    end.
    + apply IH; [|discriminate]. rewrite Hk, <- app_assoc. reflexivity.
    + symmetry. apply rm_only_codes. intros c' Hc'.
      apply (pairwise_free_elem table (c', pre ++ [b]) (c, k) table_free Hc' Hin).
      * intros Heq. injection Heq as _ Heq.
        apply (f_equal (@length _)) in Heq. rewrite Hk in Heq.
        rewrite !length_app in Heq. simpl in Heq. lia.
      * exists (b' :: suf). cbn [fst snd]. rewrite Hk, <- app_assoc.
        reflexivity.
Qed.

Lemma decode_encode (text : str) :
  (forall c, c ∈ text -> c ∈ map fst table) ->
  (forall c k, (c, k) ∈ table -> k <> []) ->
  forall dec,
    fold_left (decode_step rm) (encode table text) ([], dec)
    = ([], dec ++ text).
Proof.
  intros Hall Hne. induction text as [|c text IH]; intros dec.
  - rewrite app_nil_r. reflexivity.
  - unfold encode. cbn [map concat]. fold (encode table text).
    destruct (dict_get_elem table c) as (k & -> & Hin); [apply Hall; left|].
    cbn [default].
    rewrite (decode_code c k Hin k [] eq_refl (Hne c k Hin)).
    rewrite IH; [rewrite <- app_assoc; reflexivity|].
    intros c' Hc'. apply Hall. right. exact Hc'.
Qed.
End greedy.

Lemma fold_insert_other (table : list (char * str)) (k : str) :
  forall rm : gmap str str, (forall c, (c, k) ∉ table) ->
  fold_left (fun m e => <[e.2 := [e.1]]> m) table rm !! k = rm !! k.
Proof.
  induction table as [|[c' k'] t IH]; intros rm Hk; [reflexivity|].
  cbn [fold_left]. rewrite IH.
  - simpl. apply lookup_insert_ne. intros ->. apply (Hk c'). left.
  - intros c Hc. apply (Hk c). right. exact Hc.
Qed.

(** Decoding the bits of [text] against the table file that [compress]
    wrote, starting from a mapping that knows no string but the codes. *)
Lemma decode_text_encode (h : HuffmanCoding) (text : str) (root : HeapNode) :
  wf_tree root -> 2 <= length (leaf_items root) ->
  (forall c, c ∈ text -> c ∈ map fst (paths root [])) ->
  (forall c k, (c, k) ∈ paths root [] -> escapable c = true) ->
  (forall k, (forall c, (c, k) ∉ paths root []) ->
     reverse_mapping h !! k = None) ->
  exists h',
    decode_text h (encode (paths root []) text)
      (Some (table_text (paths root [])))
    = Ok (h', text).
Proof.
  intros Hwf Hlen Hall Hesc Hrm0.
  pose proof (paths_pairwise_free root Hwf []) as Hfree.
  assert (Hload : Forall loadable (paths root [])).
  { apply Forall_forall. intros [c k] Hin. split; [exact (Hesc c k Hin)|].
    split; [exact (codes_nonempty root c k Hwf Hlen Hin)|].
    apply paths_extend in Hin as (s & -> & Hs). exact Hs. }
  unfold decode_text. rewrite load_codes_table by exact Hload.
  cbn [bind]. eexists. f_equal. f_equal.
  rewrite decode_bits_fold.
  rewrite (decode_encode (paths root [])
             (fold_left load_entry (paths root []) (reverse_mapping h))).
  - reflexivity.
  - intros c k Hin. apply fold_load_entry_lookup; [exact Hin|].
    intros c' Hc'. apply (codes_injective (paths root []) c' c k); assumption.
  - intros k Hk. rewrite fold_load_entry_other by exact Hk. apply Hrm0, Hk.
  - exact Hfree.
  - exact Hall.
  - intros c k Hin. exact (codes_nonempty root c k Hwf Hlen Hin).
Qed.

(** ** The round trip *)

(** [C1], as the program has it: for every text with at least two
    distinct symbols in which every symbol is either no blank or one of
    newline and space, compressing and then decompressing gives the text
    back, both when one object does both (as the script does) and when a
    new object decodes. *)
Theorem round_trip (text : str) (c1 c2 : char) (codes_file : option str) :
  c1 ∈ text -> c2 ∈ text -> c1 <> c2 ->
  Forall (fun c => escapable c = true) text ->
  main text codes_file = Ok text /\
  roundtrip_fresh text codes_file = Ok text.
Proof.
  intros H1 H2 Hne Hesc.
  destruct (compress_spec text codes_file)
    as (root & b & Hwf & Hit & Hcodes & Hnd & Hall & Hcomp & Hback).
  { intros ->. inversion H1. }
  destruct (Counter_keys text) as [_ Hkeys].
  assert (Hlen : 2 <= length (leaf_items root)).
  { rewrite Hit, <- (length_map fst).
    apply (two_elements _ c1 c2); auto. }
  assert (Hsym : forall c k, (c, k) ∈ paths root [] -> escapable c = true).
  { intros c k Hin. rewrite Forall_forall in Hesc. apply Hesc.
    apply Counter_keys_text.
    assert (Hc : c ∈ map fst (paths root []))
      by (apply list_elem_of_fmap; exists (c, k); auto).
    rewrite paths_symbols in Hc.
    rewrite <- (Permutation_map fst Hit). exact Hc. }
  assert (Hfile : output_codes (coded text root) = table_text (paths root []))
    by (rewrite output_codes_table_text, Hcodes; reflexivity).
  unfold main, roundtrip_fresh. rewrite Hcomp. cbn [bind].
  rewrite !(decompress_after_compress _ b _ _ Hback), Hfile.
  split.
  - destruct (decode_text_encode (coded text root) text root
                Hwf Hlen Hall Hsym) as [h' ->]; [|reflexivity].
    intros k Hk. unfold coded.
    destruct (fold_set_code_fields (paths root [])
                (mkHuffmanCoding [] (Counter text) [] ∅)) as (_ & _ & _ & ->).
    cbn [reverse_mapping]. rewrite fold_insert_other by exact Hk.
    apply lookup_empty.
  - destruct (decode_text_encode new_HuffmanCoding text root
                Hwf Hlen Hall Hsym) as [h' ->]; [|reflexivity].
    intros k _. apply lookup_empty.
Qed.

Lemma round_trip_witness :
  main (str_of "to be or not to be" ++ [c_nl]) None
  = Ok (str_of "to be or not to be" ++ [c_nl]) /\
  roundtrip_fresh (str_of "to be or not to be" ++ [c_nl]) None
  = Ok (str_of "to be or not to be" ++ [c_nl]).
Proof.
  apply (round_trip (str_of "to be or not to be" ++ [c_nl]) 116%N 111%N None).
  - left.
  - right. left.
  - discriminate.
  - vm_compute. repeat (apply List.Forall_cons; [reflexivity|]).
    apply List.Forall_nil.
Defined.

(** A text with a tab between two letters does not come back: the run
    ends with a [ValueError]. *)
Lemma round_trip_fails_with_tab :
  main [97; 9; 98]%N None <> Ok [97; 9; 98]%N /\
  roundtrip_fresh [97; 9; 98]%N None <> Ok [97; 9; 98]%N.
Proof. split; vm_compute; discriminate. Qed.

(** * Further properties of the program *)

(** ** [make_frequency_dict] *)

Lemma dict_get_set_eq {V} (d : list (char * V)) (k : char) (v : V) :
  dict_get (dict_set d k v) k = Some v.
Proof.
  induction d as [|[k' v'] d IH]; simpl.
  - rewrite decide_True by reflexivity. reflexivity.
  - destruct (decide (k' = k)) as [-> | Hne]; simpl.
    + rewrite decide_True by reflexivity. reflexivity.
    + rewrite decide_False by exact Hne. exact IH.
Qed.

Lemma dict_get_set_ne {V} (d : list (char * V)) (k c : char) (v : V) :
  k <> c -> dict_get (dict_set d k v) c = dict_get d c.
Proof.
  intros Hkc. induction d as [|[k' v'] d IH]; simpl.
  - rewrite decide_False by exact Hkc. reflexivity.
  - destruct (decide (k' = k)) as [-> | Hne]; simpl.
    + rewrite !decide_False by exact Hkc. reflexivity.
    + destruct (decide (k' = c)); [reflexivity|exact IH].
Qed.

Lemma Counter_fold_get (text : str) (c : char) : forall d,
  dict_get
    (fold_left (fun d c => dict_set d c (default 0%Z (dict_get d c) + 1)%Z)
       text d) c
  = if decide (c ∈ text)
    then Some (default 0%Z (dict_get d c)
               + Z.of_nat (count_occ N.eq_dec text c))%Z
    else dict_get d c.
Proof.
  induction text as [|x text IH]; intros d; cbn [fold_left count_occ].
  - rewrite decide_False by (intros H; inversion H). reflexivity.
  - rewrite IH. destruct (N.eq_dec x c) as [-> | Hxc].
    + rewrite dict_get_set_eq, (decide_True (P := c ∈ c :: text)) by left.
      cbn [default from_option]. unfold id.
      case_decide as Hin; [apply (f_equal (@Some Z)); lia|].
      assert (H0 : count_occ N.eq_dec text c = 0).
      { apply count_occ_not_In. intros H. apply Hin, list_elem_of_In, H. }
      rewrite H0. apply (f_equal (@Some Z)). lia.
    + rewrite dict_get_set_ne by exact Hxc.
      repeat case_decide; try reflexivity; exfalso;
        repeat match goal with
               | H : _ ∈ _ :: _ |- _ => apply elem_of_cons in H as [?|?]
               end;
        try congruence;
        match goal with
        | H : ~ _ |- _ => apply H; first [assumption | right; assumption]
        end.
Qed.

(** [X1] [make_frequency_dict] stores in [self.frequency] a dictionary
    with one key per distinct symbol of the text: a symbol of the text is
    mapped to its number of occurrences, any other symbol is no key; the
    other fields of the object stay as they are. *)
Theorem make_frequency_dict_counts (self : HuffmanCoding) (text : str)
    (c : char) :
  dict_get (frequency (make_frequency_dict self text)) c
  = (if decide (c ∈ text)
     then Some (Z.of_nat (count_occ N.eq_dec text c))
     else None) /\
  NoDup (map fst (frequency (make_frequency_dict self text))) /\
  heap (make_frequency_dict self text) = heap self /\
  codes (make_frequency_dict self text) = codes self /\
  reverse_mapping (make_frequency_dict self text) = reverse_mapping self.
Proof.
  split; [|split; [apply Counter_keys|repeat split]].
  cbn [make_frequency_dict frequency]. unfold Counter.
  rewrite Counter_fold_get. reflexivity.
Qed.

(** ** [get_encoded_text] *)

Lemma get_encoded_text_raise (self : HuffmanCoding) (text : str) (e : exn) :
  fold_left
    (fun encoded_text character =>
       do encoded_text <- encoded_text;
       match dict_get (codes self) character with
       | Some code => Ok (encoded_text ++ code)
       | None => Raise KeyError
       end) text (Raise e)
  = Raise e.
Proof. induction text as [|c text IH]; [reflexivity|exact IH]. Qed.

(** [X2] [get_encoded_text] concatenates the codes of the symbols of the
    text in their order when every symbol has an entry in [self.codes],
    and raises [KeyError] as soon as one has none. *)
Theorem get_encoded_text_spec (self : HuffmanCoding) (text : str) :
  get_encoded_text self text
  = if forallb (fun c => bool_decide (is_Some (dict_get (codes self) c))) text
    then Ok (concat (map (fun c => default [] (dict_get (codes self) c)) text))
    else Raise KeyError.
Proof.
  unfold get_encoded_text.
  assert (H : forall acc,
    fold_left
      (fun encoded_text character =>
         do encoded_text <- encoded_text;
         match dict_get (codes self) character with
         | Some code => Ok (encoded_text ++ code)
         | None => Raise KeyError
         end) text (Ok acc)
    = if forallb (fun c => bool_decide (is_Some (dict_get (codes self) c))) text
      then Ok (acc ++ concat (map (fun c => default [] (dict_get (codes self) c))
                                text))
      else Raise KeyError).
  { induction text as [|c text IH]; intros acc;
      cbn [fold_left forallb map concat bind].
    - rewrite app_nil_r. reflexivity.
    - destruct (dict_get (codes self) c) as [k|] eqn:Hk.
      + rewrite bool_decide_eq_true_2 by eauto. cbn [andb default].
        rewrite IH, <- app_assoc. reflexivity.
      + rewrite bool_decide_eq_false_2 by (intros [? ?]; discriminate).
        cbn [andb]. apply get_encoded_text_raise. }
  apply (H []).
Qed.

(** ** [get_byte_array] and the byte loop of [decompress] *)

Definition is_byte (v : N) : Prop := (v <? 256)%N = true.

Lemma byte_bits (v : N) :
  is_byte v ->
  length (rjust 8 c0 (bin v)) = 8 /\ Forall is_bit (rjust 8 c0 (bin v)) /\
  int2 (rjust 8 c0 (bin v)) = Ok v.
Proof.
  unfold is_byte. intros Hv. destruct v as [|p].
  - split; [reflexivity|]. split; [solve_bits|reflexivity].
  - do 8 (try destruct p as [p|p|]);
      try (apply N.ltb_lt in Hv; lia);
      (split; [reflexivity|]; split; [solve_bits|reflexivity]).
Qed.

Lemma bits_of_bytes_length (bs : list N) :
  Forall is_byte bs -> length (bits_of_bytes bs) = 8 * length bs.
Proof.
  rewrite bits_of_bytes_concat.
  induction 1 as [|v bs Hv Hbs IH]; [reflexivity|].
  cbn [map concat length]. rewrite length_app, IH.
  destruct (byte_bits v Hv) as (-> & _ & _). lia.
Qed.

Lemma bits_of_bytes_bits (bs : list N) :
  Forall is_byte bs -> Forall is_bit (bits_of_bytes bs).
Proof.
  rewrite bits_of_bytes_concat.
  induction 1 as [|v bs Hv Hbs IH]; [constructor|].
  cbn [map concat]. apply Forall_app. split; [|exact IH].
  apply (byte_bits v Hv).
Qed.

Lemma bits_of_bytes_inj (b b' : list N) :
  Forall is_byte b -> Forall is_byte b' ->
  bits_of_bytes b = bits_of_bytes b' -> b = b'.
Proof.
  rewrite !bits_of_bytes_concat. intros Hb. revert b'.
  induction Hb as [|v b Hv Hb IH]; intros b' Hb' Heq.
  - destruct Hb' as [|v' b' Hv' Hb']; [reflexivity|].
    cbn [map concat] in Heq. destruct (byte_bits v' Hv') as (Hl & _ & _).
    apply (f_equal (@length _)) in Heq. rewrite length_app, Hl in Heq.
    simpl in Heq. lia.
  - destruct Hb' as [|v' b' Hv' Hb'].
    + cbn [map concat] in Heq. destruct (byte_bits v Hv) as (Hl & _ & _).
      apply (f_equal (@length _)) in Heq. rewrite length_app, Hl in Heq.
      simpl in Heq. lia.
    + cbn [map concat] in Heq.
      destruct (byte_bits v Hv) as (Hl & _ & Hi).
      destruct (byte_bits v' Hv') as (Hl' & _ & Hi').
      apply app_inj_1 in Heq as [Hhead Htail]; [|congruence].
      rewrite Hhead in Hi. rewrite Hi in Hi'. injection Hi' as ->.
      f_equal. apply IH; assumption.
Qed.

(** What [get_byte_array] returns is a list of bytes. *)
Lemma get_byte_array_bytes (s : str) (b : list N) :
  get_byte_array s = Ok b -> Forall is_byte b.
Proof.
  unfold get_byte_array.
  destruct (negb (length s mod 8 =? 0)); [discriminate|].
  assert (H : forall idx acc,
    Forall is_byte acc ->
    fold_left
      (fun b i =>
         do b <- b; do v <- int2 (slice s i (i + 8)); bytearray_append b v)
      idx (Ok acc) = Ok b -> Forall is_byte b).
  { induction idx as [|i idx IH]; intros acc Hacc; cbn [fold_left bind].
    - intros [= <-]. exact Hacc.
    - destruct (int2 (slice s i (i + 8))) as [v|e]; cbn [bind].
      + unfold bytearray_append at 2. destruct (v <? 256)%N eqn:Hv.
        * apply IH. apply Forall_app. split; [exact Hacc|].
          constructor; [exact Hv|constructor].
        * intros Hf. exfalso. revert Hf. clear.
          induction idx as [|j idx IHj]; [discriminate|exact IHj].
      + intros Hf. exfalso. revert Hf. clear.
        induction idx as [|j idx IHj]; [discriminate|exact IHj]. }
  apply (H _ []). constructor.
Qed.

(** [X3] Packing then unpacking: for a string of binary digits whose
    length is a multiple of 8, [get_byte_array] returns one byte (a
    number below 256) per eight digits, and the bit string [decompress]
    builds from those bytes is the string again. *)
Theorem pack_then_unpack (s : str) :
  length s mod 8 = 0 -> Forall is_bit s ->
  exists b,
    get_byte_array s = Ok b /\ bits_of_bytes b = s /\
    Forall is_byte b /\ 8 * length b = length s.
Proof.
  intros Hmod Hbits.
  destruct (get_byte_array_bits s Hmod Hbits) as (b & Hb & Hback).
  pose proof (get_byte_array_bytes s b Hb) as Hbytes.
  exists b. split; [exact Hb|]. split; [exact Hback|].
  split; [exact Hbytes|]. rewrite <- Hback. symmetry.
  apply bits_of_bytes_length, Hbytes.
Qed.

Lemma pack_then_unpack_witness :
  exists b,
    get_byte_array (str_of "0000001101100000") = Ok b /\
    bits_of_bytes b = str_of "0000001101100000" /\
    Forall is_byte b /\ 8 * length b = length (str_of "0000001101100000").
Proof.
  apply (pack_then_unpack (str_of "0000001101100000")).
  - reflexivity.
  - solve_bits.
Defined.

(** [X4] Unpacking then packing: the bit string [decompress] builds from
    any list of bytes has eight digits per byte, and [get_byte_array]
    turns it back into the same bytes. *)
Theorem unpack_then_pack (bs : list N) :
  Forall is_byte bs ->
  length (bits_of_bytes bs) = 8 * length bs /\
  get_byte_array (bits_of_bytes bs) = Ok bs.
Proof.
  intros Hbs. split; [apply bits_of_bytes_length, Hbs|].
  destruct (get_byte_array_bits (bits_of_bytes bs)) as (b & Hb & Hback).
  - rewrite bits_of_bytes_length by exact Hbs.
    rewrite Nat.mul_comm. apply Nat.Div0.mod_mul.
  - apply bits_of_bytes_bits, Hbs.
  - rewrite Hb. f_equal.
    apply bits_of_bytes_inj; [eapply get_byte_array_bytes; eauto|exact Hbs|].
    exact Hback.
Qed.

Lemma unpack_then_pack_witness :
  length (bits_of_bytes [3; 96; 255]%N) = 8 * length [3; 96; 255]%N /\
  get_byte_array (bits_of_bytes [3; 96; 255]%N) = Ok [3; 96; 255]%N.
Proof.
  apply (unpack_then_pack [3; 96; 255]%N).
  repeat (apply List.Forall_cons; [reflexivity|]). apply List.Forall_nil.
Defined.

(** ** Padding *)

(** [X5] Padding then removing the padding gives the encoded text back,
    for every string: [remove_padding] reads the count that
    [pad_encoded_text] wrote and strips exactly the zeros it added. The
    same holds through the file: when the encoded text is a string of
    binary digits, the padded text packs into bytes, and the bits read
    back from those bytes lose their padding to give the encoded text. *)
Theorem padding_round_trip (encoded_text : str) :
  remove_padding (pad_encoded_text encoded_text) = Ok encoded_text /\
  (Forall is_bit encoded_text ->
   exists b,
     get_byte_array (pad_encoded_text encoded_text) = Ok b /\
     remove_padding (bits_of_bytes b) = Ok encoded_text).
Proof.
  split; [apply remove_padding_pad|]. intros Hbits.
  destruct (get_byte_array_bits (pad_encoded_text encoded_text))
    as (b & Hb & Hback).
  - apply pad_encoded_text_mod8.
  - apply pad_encoded_text_bits, Hbits.
  - exists b. split; [exact Hb|]. rewrite Hback. apply remove_padding_pad.
Qed.

(** ** The bytes [compress] writes *)

Lemma byte_loop_raise (s : str) (idx : list nat) (e : exn) :
  fold_left
    (fun b i =>
       do b <- b; do v <- int2 (slice s i (i + 8)); bytearray_append b v)
    idx (Raise e) = Raise e.
Proof. induction idx as [|i idx IH]; [reflexivity|exact IH]. Qed.

Lemma byte_loop_extends (s : str) (idx : list nat) : forall acc b,
  fold_left
    (fun b i =>
       do b <- b; do v <- int2 (slice s i (i + 8)); bytearray_append b v)
    idx (Ok acc) = Ok b ->
  exists tail, b = acc ++ tail /\ length tail = length idx.
Proof.
  induction idx as [|i idx IH]; intros acc b; cbn [fold_left bind].
  - intros [= <-]. exists []. rewrite app_nil_r. auto.
  - destruct (int2 (slice s i (i + 8))) as [v|e]; cbn [bind];
      [|rewrite byte_loop_raise; discriminate].
    unfold bytearray_append at 2. destruct (v <? 256)%N;
      [|rewrite byte_loop_raise; discriminate].
    intros H. apply IH in H as (tail & -> & Hlen).
    exists (v :: tail). rewrite <- app_assoc. simpl. auto.
Qed.

Lemma get_byte_array_length (s : str) (b : list N) :
  get_byte_array s = Ok b -> 8 * length b = length s.
Proof.
  unfold get_byte_array.
  destruct (length s mod 8 =? 0) eqn:Hmod; [|discriminate].
  apply Nat.eqb_eq in Hmod. cbn [negb].
  intros H. apply byte_loop_extends in H as (tail & -> & Hlen).
  unfold range3 in Hlen. rewrite length_map, length_seq in Hlen.
  pose proof (Nat.div_mod_eq (length s) 8) as Hdiv. rewrite Hmod in Hdiv.
  replace (length s - 0 + 8 - 1) with (7 + (length s / 8) * 8) in Hlen by lia.
  rewrite Nat.div_add in Hlen by lia.
  change (7 / 8) with 0 in Hlen. simpl length. lia.
Qed.

Lemma get_byte_array_first (s : str) (b : list N) (v : N) :
  8 <= length s -> int2 (firstn 8 s) = Ok v ->
  get_byte_array s = Ok b -> b !! 0 = Some v.
Proof.
  intros Hlen Hv. unfold get_byte_array.
  destruct (length s mod 8 =? 0) eqn:Hmod; [|discriminate].
  apply Nat.eqb_eq in Hmod. cbn [negb]. unfold range3.
  pose proof (Nat.div_mod_eq (length s) 8) as Hdiv. rewrite Hmod in Hdiv.
  replace (length s - 0 + 8 - 1) with (7 + (length s / 8) * 8) by lia.
  rewrite Nat.div_add by lia. change (7 / 8) with 0.
  destruct (length s / 8) as [|n] eqn:E; [lia|].
  cbn [Nat.add seq map fold_left bind].
  change (slice s (0 * 8) (0 * 8 + 8)) with (firstn 8 (skipn 0 s)).
  rewrite skipn_O, Hv. cbn [bind]. unfold bytearray_append at 2.
  destruct (v <? 256)%N; [|rewrite byte_loop_raise; discriminate].
  intros H. apply byte_loop_extends in H as (tail & -> & _). reflexivity.
Qed.

(** What a successful [compress] of a text that is not empty went
    through. *)
Lemma compress_bytes (self h : HuffmanCoding) (text : str)
    (codes_file file : option str) (b : list N) :
  text <> [] ->
  compress self text codes_file = Ok (h, b, file) ->
  exists encoded_text,
    get_encoded_text h text = Ok encoded_text /\
    get_byte_array (pad_encoded_text encoded_text) = Ok b /\
    file = Some (output_codes h).
Proof.
  intros Hne. rewrite compress_nonempty by exact Hne. cbv zeta.
  destruct (merge_nodes _) as [s1|e]; cbn [bind]; [|discriminate].
  destruct (make_codes s1) as [s2|e]; cbn [bind]; [|discriminate].
  destruct (get_encoded_text s2 text) as [enc|e] eqn:Henc; cbn [bind];
    [|discriminate].
  destruct (get_byte_array (pad_encoded_text enc)) as [b0|e] eqn:Hb;
    cbn [bind]; [|discriminate].
  intros [= <- <- <-]. exists enc. auto.
Qed.

(** [X6] The layout of the compressed file: when [compress] succeeds on
    a text that is not empty, it writes [n / 8 + 2] bytes, where [n] is
    the number of bits of the encoded text; every one is below 256, and
    the first is the padding count [8 - n mod 8]. The table file is
    written from the codes of the object. *)
Theorem compressed_layout (self h : HuffmanCoding) (text : str)
    (codes_file file : option str) (b : list N) :
  text <> [] ->
  compress self text codes_file = Ok (h, b, file) ->
  exists encoded_text,
    get_encoded_text h text = Ok encoded_text /\
    length b = length encoded_text / 8 + 2 /\
    b !! 0 = Some (N.of_nat (8 - length encoded_text mod 8)) /\
    Forall is_byte b /\
    file = Some (output_codes h).
Proof.
  intros Hne Hc.
  destruct (compress_bytes self h text codes_file file b Hne Hc)
    as (enc & Henc & Hb & Hfile).
  exists enc. split; [exact Henc|].
  pose proof (extra_padding_range (length enc)) as Hp.
  split; [|split; [|split; [eapply get_byte_array_bytes; eauto|exact Hfile]]].
  - apply get_byte_array_length in Hb. rewrite pad_encoded_text_length in Hb.
    pose proof (Nat.div_mod_eq (length enc) 8).
    pose proof (Nat.mod_upper_bound (length enc) 8). lia.
  - apply (get_byte_array_first (pad_encoded_text enc)); [| |exact Hb].
    + rewrite pad_encoded_text_length. lia.
    + unfold pad_encoded_text.
      rewrite firstn_app, firstn_all2
        by (rewrite format_08b_length by exact Hp; lia).
      rewrite format_08b_length by exact Hp.
      cbn [Nat.sub firstn]. rewrite app_nil_r.
      apply format_08b_int2, Hp.
Qed.

Lemma compressed_layout_witness :
  exists encoded_text,
    get_encoded_text (coded (str_of "aabbbc")
                        (merged (leaf (98%N, 3%Z))
                           (merged (leaf (99%N, 1%Z)) (leaf (97%N, 2%Z)))))
      (str_of "aabbbc") = Ok encoded_text /\
    length [7; 241; 0]%N = length encoded_text / 8 + 2 /\
    [7; 241; 0]%N !! 0 = Some (N.of_nat (8 - length encoded_text mod 8)) /\
    Forall is_byte [7; 241; 0]%N /\
    Some (str_of "b 0" ++ [c_nl] ++ str_of "c 10" ++ [c_nl]
          ++ str_of "a 11" ++ [c_nl])
    = Some (output_codes
              (coded (str_of "aabbbc")
                 (merged (leaf (98%N, 3%Z))
                    (merged (leaf (99%N, 1%Z)) (leaf (97%N, 2%Z)))))).
Proof.
  apply (compressed_layout new_HuffmanCoding _ (str_of "aabbbc") None _ _).
  - discriminate.
  - vm_compute. reflexivity.
Defined.

(** ** The code table of a text *)

Lemma fold_insert_lookup (table : list (char * str)) (c : char) (k : str) :
  forall rm : gmap str str, (c, k) ∈ table ->
  (forall c', (c', k) ∈ table -> c' = c) ->
  fold_left (fun m e => <[e.2 := [e.1]]> m) table rm !! k = Some [c].
Proof.
  induction table as [|[c' k'] t IH]; intros rm Hin Hinj; [inversion Hin|].
  cbn [fold_left].
  destruct (decide ((c, k) ∈ t)) as [Ht | Ht].
  - apply IH; [exact Ht|]. intros c'' Hc''. apply Hinj. right. exact Hc''.
  - apply elem_of_cons in Hin as [Heq | Hin]; [|contradiction].
    injection Heq as <- <-.
    rewrite fold_insert_other.
    + simpl. apply lookup_insert_eq.
    + intros c'' Hc''. assert (c'' = c) as -> by (apply Hinj; right; exact Hc'').
      contradiction.
Qed.

Lemma fold_insert_inv (table : list (char * str)) (k v : str) :
  forall rm : gmap str str,
  fold_left (fun m e => <[e.2 := [e.1]]> m) table rm !! k = Some v ->
  rm !! k = Some v \/ exists c, (c, k) ∈ table /\ v = [c].
Proof.
  induction table as [|[c' k'] t IH]; intros rm H; [left; exact H|].
  cbn [fold_left] in H. apply IH in H as [H | (c & Hc & ->)].
  - simpl in H. destruct (decide (k' = k)) as [-> | Hne].
    + rewrite lookup_insert_eq in H. injection H as <-.
      right. exists c'. split; [left|reflexivity].
    + rewrite lookup_insert_ne in H by exact Hne. left. exact H.
  - right. exists c. split; [right; exact Hc|reflexivity].
Qed.

(** [X7] After [compress] of a text that is not empty, on a new object:
    the heap is empty again and [self.frequency] counts the text;
    [self.codes] has exactly one entry per distinct symbol of the text,
    each a string of binary digits; and [self.reverse_mapping] is its
    inverse: a code is mapped to a symbol there exactly when the symbol
    has that code. *)
Theorem code_table_covers_text (text : str) (codes_file : option str) :
  text <> [] ->
  exists h b,
    compress new_HuffmanCoding text codes_file
    = Ok (h, b, Some (output_codes h)) /\
    heap h = [] /\ frequency h = Counter text /\
    NoDup (map fst (codes h)) /\
    (forall c, c ∈ map fst (codes h) <-> c ∈ text) /\
    (forall c k, (c, k) ∈ codes h -> Forall is_bit k) /\
    (forall c k, (c, k) ∈ codes h <-> reverse_mapping h !! k = Some [c]).
Proof.
  intros Hne.
  destruct (compress_spec text codes_file Hne)
    as (root & b & Hwf & Hit & Hcodes & Hnd & Hall & Hcomp & _).
  exists (coded text root), b. split; [exact Hcomp|].
  destruct (fold_set_code_fields (paths root [])
              (mkHuffmanCoding [] (Counter text) [] ∅))
    as (Hheap & Hfreq & _ & Hrm).
  fold (coded text root) in Hheap, Hfreq, Hrm.
  cbn [heap frequency reverse_mapping] in Hheap, Hfreq, Hrm.
  split; [exact Hheap|]. split; [exact Hfreq|]. rewrite Hcodes, Hrm.
  split; [exact Hnd|]. split; [|split].
  - intros c. split; [|apply Hall]. intros Hc.
    apply Counter_keys_text. rewrite paths_symbols in Hc.
    rewrite <- (Permutation_map fst Hit). exact Hc.
  - intros c k Hin. apply paths_extend in Hin as (s & -> & Hs). exact Hs.
  - pose proof (paths_pairwise_free root Hwf []) as Hfree.
    intros c k. split.
    + intros Hin. apply fold_insert_lookup; [exact Hin|].
      intros c' Hc'. apply (codes_injective (paths root []) c' c k); assumption.
    + intros Hk. apply fold_insert_inv in Hk as [Hk | (c' & Hc' & Heq)].
      * rewrite lookup_empty in Hk. discriminate.
      * injection Heq as ->. exact Hc'.
Qed.

Lemma code_table_covers_text_witness :
  exists h b,
    compress new_HuffmanCoding (str_of "abracadabra") None
    = Ok (h, b, Some (output_codes h)) /\
    heap h = [] /\ frequency h = Counter (str_of "abracadabra") /\
    NoDup (map fst (codes h)) /\
    (forall c, c ∈ map fst (codes h) <-> c ∈ str_of "abracadabra") /\
    (forall c k, (c, k) ∈ codes h -> Forall is_bit k) /\
    (forall c k, (c, k) ∈ codes h <-> reverse_mapping h !! k = Some [c]).
Proof.
  apply (code_table_covers_text (str_of "abracadabra") None). discriminate.
Defined.

Lemma wf_tree_has_leaf (root : HeapNode) :
  wf_tree root -> 1 <= length (leaf_items root).
Proof.
  induction 1 as [c f|f l r Hl IHl Hr IHr]; cbn [leaf_items]; simpl.
  - lia.
  - rewrite length_app. lia.
Qed.

Lemma paths_length (root : HeapNode) :
  wf_tree root -> forall code c k,
  (c, k) ∈ paths root code ->
  length k + 1 <= length code + length (leaf_items root).
Proof.
  induction 1 as [c' f|f l r Hl IHl Hr IHr]; intros code c k Hin.
  - cbn [paths app] in Hin. apply list_elem_of_singleton in Hin.
    injection Hin as -> ->. simpl. lia.
  - cbn [paths leaf_items app] in *.
    pose proof (wf_tree_has_leaf l Hl). pose proof (wf_tree_has_leaf r Hr).
    rewrite length_app.
    apply elem_of_app in Hin as [Hin | Hin];
      [apply IHl in Hin|apply IHr in Hin];
      rewrite length_app in Hin; simpl in Hin; lia.
Qed.

(** [X8] No code is longer than the number of symbols allows: in the
    table built for a frequency map, every code has fewer bits than the
    map has entries. *)
Theorem code_length_bound (freq : list (char * Z)) (table : list (char * str))
    (c : char) (k : str) :
  build_codes freq = Ok table -> (c, k) ∈ table ->
  length k < length freq.
Proof.
  intros Hb Hin. destruct freq as [|kv freq]; [discriminate|].
  destruct (build_tree new_HuffmanCoding (kv :: freq))
    as (root & Hm & Hwf & Hit & _); [reflexivity|discriminate|].
  unfold build_codes in Hb. rewrite Hm in Hb. cbn [bind] in Hb.
  unfold make_codes in Hb. cbn [heap] in Hb.
  rewrite heappop_singleton in Hb. cbn [bind] in Hb.
  rewrite make_codes_helper_paths in Hb.
  destruct (fold_set_code_fields (paths root []) (mkHuffmanCoding [] [] [] ∅))
    as (_ & _ & Hcodes & _).
  cbn [heap frequency codes reverse_mapping new_HuffmanCoding] in *.
  rewrite Hcodes in Hb. injection Hb as <-.
  apply fold_dict_set_elem in Hin as [Hin | Hin]; [inversion Hin|].
  apply (paths_length root Hwf) in Hin. rewrite Hit in Hin.
  simpl in Hin. simpl. lia.
Qed.

Lemma code_length_bound_witness :
  length (str_of "10") < length (Counter (str_of "aabbbc")).
Proof.
  apply (code_length_bound (Counter (str_of "aabbbc"))
           [(98%N, str_of "0"); (99%N, str_of "10"); (97%N, str_of "11")]
           99%N (str_of "10")).
  - vm_compute. reflexivity.
  - right. left.
Defined.

(** ** Bits left over at the end of the encoded text *)

Section greedy_tail.
Context (table : list (char * str)) (rm : gmap str str).
Hypothesis rm_only_codes :
  forall k, (forall c, (c, k) ∉ table) -> rm !! k = None.
Hypothesis table_free : pairwise_free table.

(** Reading a proper prefix of a code matches nothing. *)
Lemma decode_partial (c : char) (k : str) :
  (c, k) ∈ table ->
  forall suf pre, pre ++ suf `prefix_of` k -> pre ++ suf <> k ->
  forall dec,
    fold_left (decode_step rm) suf (pre, dec) = (pre ++ suf, dec).
Proof.
  intros Hin suf. induction suf as [|b suf IH]; intros pre Hpre Hne dec.
  - rewrite app_nil_r. reflexivity.
  - cbn [fold_left decode_step].
    assert (Hcur : (pre ++ [b]) ++ suf = pre ++ b :: suf)
      by (rewrite <- app_assoc; reflexivity).
    match goal with
    | |- context [match ?x with _ => _ end] => replace x with (@None str)
    end.
    + rewrite IH; [rewrite Hcur; reflexivity| |]; rewrite Hcur; assumption.
    + symmetry. apply rm_only_codes. intros c' Hc'.
      apply (pairwise_free_elem table (c', pre ++ [b]) (c, k) table_free Hc' Hin).
      * intros Heq. injection Heq as _ Heq.
        destruct Hpre as [u Hu]. rewrite <- Hcur, Heq in Hu.
        rewrite <- app_assoc in Hu.
        rewrite <- (app_nil_r k) in Hu at 1. apply app_inv_head in Hu.
        symmetry in Hu. apply app_eq_nil in Hu as [-> _].
        apply Hne. rewrite <- Hcur, app_nil_r. exact Heq.
      * destruct Hpre as [u Hu]. exists (suf ++ u). cbn [fst snd].
        rewrite Hu, <- Hcur, <- !app_assoc. reflexivity.
Qed.
End greedy_tail.

Lemma decode_text_encode_tail (h : HuffmanCoding) (text : str)
    (root : HeapNode) (c : char) (k t : str) :
  wf_tree root -> 2 <= length (leaf_items root) ->
  (forall c, c ∈ text -> c ∈ map fst (paths root [])) ->
  (forall c k, (c, k) ∈ paths root [] -> escapable c = true) ->
  (forall k, (forall c, (c, k) ∉ paths root []) ->
     reverse_mapping h !! k = None) ->
  (c, k) ∈ paths root [] -> t `prefix_of` k -> t <> k ->
  exists h',
    decode_text h (encode (paths root []) text ++ t)
      (Some (table_text (paths root [])))
    = Ok (h', text).
Proof.
  intros Hwf Hlen Hall Hesc Hrm0 Hin Hpre Hne.
  pose proof (paths_pairwise_free root Hwf []) as Hfree.
  assert (Hload : Forall loadable (paths root [])).
  { apply Forall_forall. intros [c' k'] Hin'. split; [exact (Hesc c' k' Hin')|].
    split; [exact (codes_nonempty root c' k' Hwf Hlen Hin')|].
    apply paths_extend in Hin' as (s & -> & Hs). exact Hs. }
  assert (Honly : forall k',
    (forall c', (c', k') ∉ paths root []) ->
    fold_left load_entry (paths root []) (reverse_mapping h) !! k' = None).
  { intros k' Hk'. rewrite fold_load_entry_other by exact Hk'.
    apply Hrm0, Hk'. }
  unfold decode_text. rewrite load_codes_table by exact Hload.
  cbn [bind]. eexists. f_equal. f_equal.
  rewrite decode_bits_fold, fold_left_app.
  rewrite (decode_encode (paths root [])
             (fold_left load_entry (paths root []) (reverse_mapping h))).
  - rewrite (decode_partial (paths root []) _ Honly Hfree c k Hin t []);
      [reflexivity|exact Hpre|exact Hne].
  - intros c' k' Hin'. apply fold_load_entry_lookup; [exact Hin'|].
    intros c'' Hc''.
    apply (codes_injective (paths root []) c'' c' k'); assumption.
  - exact Honly.
  - exact Hfree.
  - exact Hall.
  - intros c' k' Hin'. exact (codes_nonempty root c' k' Hwf Hlen Hin').
Qed.

(** [X9] Bits left over are dropped without a word: for a text with at
    least two distinct symbols, none a blank other than space and
    newline, decoding the encoded text followed by any proper prefix of
    a code (a piece of a code cut short) still returns the text, and no
    error. *)
Theorem trailing_bits_dropped (text : str) (c1 c2 : char)
    (codes_file : option str) :
  c1 ∈ text -> c2 ∈ text -> c1 <> c2 ->
  Forall (fun c => escapable c = true) text ->
  exists h b encoded_text,
    compress new_HuffmanCoding text codes_file
    = Ok (h, b, Some (output_codes h)) /\
    get_encoded_text h text = Ok encoded_text /\
    forall c k t,
      (c, k) ∈ codes h -> t `prefix_of` k -> t <> k ->
      exists h',
        decode_text h (encoded_text ++ t) (Some (output_codes h))
        = Ok (h', text).
Proof.
  intros H1 H2 Hne Hesc.
  destruct (compress_spec text codes_file)
    as (root & b & Hwf & Hit & Hcodes & Hnd & Hall & Hcomp & Hback).
  { intros ->. inversion H1. }
  destruct (Counter_keys text) as [_ Hkeys].
  assert (Hlen : 2 <= length (leaf_items root)).
  { rewrite Hit, <- (length_map fst).
    apply (two_elements _ c1 c2); auto. }
  assert (Hsym : forall c k, (c, k) ∈ paths root [] -> escapable c = true).
  { intros c k Hin. rewrite Forall_forall in Hesc. apply Hesc.
    apply Counter_keys_text.
    assert (Hc : c ∈ map fst (paths root []))
      by (apply list_elem_of_fmap; exists (c, k); auto).
    rewrite paths_symbols in Hc.
    rewrite <- (Permutation_map fst Hit). exact Hc. }
  exists (coded text root), b, (encode (paths root []) text).
  split; [exact Hcomp|]. split.
  { rewrite get_encoded_text_encode by (rewrite Hcodes; exact Hall).
    rewrite Hcodes. reflexivity. }
  rewrite output_codes_table_text, Hcodes.
  intros c k t Hin Hpre Hnek.
  apply (decode_text_encode_tail (coded text root) text root c k t);
    try assumption.
  intros k' Hk'. unfold coded.
  destruct (fold_set_code_fields (paths root [])
              (mkHuffmanCoding [] (Counter text) [] ∅)) as (_ & _ & _ & ->).
  cbn [reverse_mapping]. rewrite fold_insert_other by exact Hk'.
  apply lookup_empty.
Qed.

Lemma trailing_bits_dropped_witness :
  exists h b encoded_text,
    compress new_HuffmanCoding (str_of "aabbbc") None
    = Ok (h, b, Some (output_codes h)) /\
    get_encoded_text h (str_of "aabbbc") = Ok encoded_text /\
    forall c k t,
      (c, k) ∈ codes h -> t `prefix_of` k -> t <> k ->
      exists h',
        decode_text h (encoded_text ++ t) (Some (output_codes h))
        = Ok (h', str_of "aabbbc").
Proof.
  apply (trailing_bits_dropped (str_of "aabbbc") 97%N 98%N None).
  - left.
  - right. right. left.
  - discriminate.
  - vm_compute. repeat (apply List.Forall_cons; [reflexivity|]).
    apply List.Forall_nil.
Defined.

(** ** The sums of [calculate_metrics] *)

(** The sum of [g] over the keys of a dictionary, each weighted by its
    count. *)
Definition weighted_sum (g : char -> Z) (d : list (char * Z)) : Z :=
  fold_right (fun kv acc => (g kv.1 * kv.2 + acc)%Z) 0%Z d.

Lemma weighted_sum_incr (g : char -> Z) (d : list (char * Z)) (c : char) :
  weighted_sum g (dict_set d c (default 0%Z (dict_get d c) + 1)%Z)
  = (weighted_sum g d + g c)%Z.
Proof.
  induction d as [|[k v] d IH]; simpl; [lia|].
  destruct (decide (k = c)) as [-> | Hne]; simpl; lia.
Qed.

Lemma weighted_sum_Counter (g : char -> Z) (text : str) :
  weighted_sum g (Counter text)
  = fold_right (fun c acc => (g c + acc)%Z) 0%Z text.
Proof.
  unfold Counter.
  assert (H : forall d,
    weighted_sum g
      (fold_left (fun d c => dict_set d c (default 0%Z (dict_get d c) + 1)%Z)
         text d)
    = (weighted_sum g d + fold_right (fun c acc => (g c + acc)%Z) 0%Z text)%Z).
  { induction text as [|c text IH]; intros d; cbn [fold_left fold_right].
    - lia.
    - rewrite IH, weighted_sum_incr. lia. }
  rewrite H. reflexivity.
Qed.

Lemma total_chars_sum (self : HuffmanCoding) :
  total_chars self = sum_freq (frequency self).
Proof.
  unfold total_chars.
  assert (H : forall l a,
    fold_left (fun acc '(_, f) => (acc + f)%Z) l a = (a + sum_freq l)%Z).
  { induction l as [|[k f] l IH]; intros a; cbn [fold_left]; simpl.
    - lia.
    - rewrite IH. lia. }
  apply (H _ 0%Z).
Qed.

Lemma total_length_sum (self : HuffmanCoding) :
  (forall c, c ∈ map fst (frequency self) -> c ∈ map fst (codes self)) ->
  total_length self
  = Ok (weighted_sum
          (fun c => Z.of_nat (length (default [] (dict_get (codes self) c))))
          (frequency self)).
Proof.
  unfold total_length. generalize (frequency self). intros l Hall.
  assert (H : forall a,
    fold_left
      (fun acc '(c, f) =>
         do acc <- acc;
         match dict_get (codes self) c with
         | Some code => Ok (acc + Z.of_nat (length code) * f)%Z
         | None => Raise KeyError
         end) l (Ok a)
    = Ok (a + weighted_sum
                (fun c =>
                   Z.of_nat (length (default [] (dict_get (codes self) c))))
                l)%Z).
  { induction l as [|[k f] l IH]; intros a; cbn [fold_left bind].
    - simpl. f_equal. lia.
    - destruct (dict_get_elem (codes self) k) as (code & Hk & _);
        [apply Hall; left|].
      rewrite Hk, IH.
      + simpl. rewrite Hk. simpl. f_equal. lia.
      + intros c Hc. apply Hall. right. exact Hc. }
  apply (H 0%Z).
Qed.

Lemma encode_length (table : list (char * str)) (text : str) :
  Z.of_nat (length (encode table text))
  = fold_right
      (fun c acc => (Z.of_nat (length (default [] (dict_get table c))) + acc)%Z)
      0%Z text.
Proof.
  unfold encode. induction text as [|c text IH]; [reflexivity|].
  cbn [map concat fold_right]. rewrite length_app, <- IH. lia.
Qed.

(** [X10] The two sums [calculate_metrics] starts from, after [compress]
    of a text that is not empty on a new object: [total_chars] is the
    length of the text, so it is positive and the division by it is
    defined, and [total_length] is computed without a [KeyError] and is
    the number of bits of the encoded text. *)
Theorem metrics_sums (text : str) (codes_file : option str) :
  text <> [] ->
  exists h b encoded_text,
    compress new_HuffmanCoding text codes_file
    = Ok (h, b, Some (output_codes h)) /\
    get_encoded_text h text = Ok encoded_text /\
    total_chars h = Z.of_nat (length text) /\
    (0 < total_chars h)%Z /\
    total_length h = Ok (Z.of_nat (length encoded_text)).
Proof.
  intros Hne.
  destruct (compress_spec text codes_file Hne)
    as (root & b & Hwf & Hit & Hcodes & Hnd & Hall & Hcomp & _).
  exists (coded text root), b, (encode (paths root []) text).
  split; [exact Hcomp|]. split.
  { rewrite get_encoded_text_encode by (rewrite Hcodes; exact Hall).
    rewrite Hcodes. reflexivity. }
  destruct (fold_set_code_fields (paths root [])
              (mkHuffmanCoding [] (Counter text) [] ∅))
    as (_ & Hfreq & _ & _).
  fold (coded text root) in Hfreq. cbn [frequency] in Hfreq.
  assert (Hchars : total_chars (coded text root) = Z.of_nat (length text)).
  { rewrite total_chars_sum, Hfreq. apply Counter_sum. }
  split; [exact Hchars|]. split.
  { rewrite Hchars. destruct text; [congruence|simpl; lia]. }
  rewrite total_length_sum.
  - rewrite Hfreq, Hcodes, weighted_sum_Counter, encode_length. reflexivity.
  - rewrite Hfreq, Hcodes. intros c Hc. apply Hall, Counter_keys_text, Hc.
Qed.

Lemma metrics_sums_witness :
  exists h b encoded_text,
    compress new_HuffmanCoding (str_of "aabbbc") None
    = Ok (h, b, Some (output_codes h)) /\
    get_encoded_text h (str_of "aabbbc") = Ok encoded_text /\
    total_chars h = Z.of_nat (length (str_of "aabbbc")) /\
    (0 < total_chars h)%Z /\
    total_length h = Ok (Z.of_nat (length encoded_text)).
Proof. apply (metrics_sums (str_of "aabbbc") None). discriminate. Defined.

(** ** [decode_text] and the entries of [self.reverse_mapping] *)

(** The lines of the table file, as the first loop of [decode_text]
    sees them. *)
Definition table_lines (file : str) : list str :=
  readlines (universal_newlines file).

(** A line that [char, code = line.strip().split()] unpacks. *)
Definition two_fields (line : str) : Prop :=
  exists ch code, split (strip line) = [ch; code].

Lemma load_line_two_fields (rm : gmap str str) (line ch code : str) :
  split (strip line) = [ch; code] ->
  load_line rm line = Ok (<[code := ch]> rm).
Proof. intros H. unfold load_line. rewrite H. reflexivity. Qed.

Lemma load_lines_spec (lines : list str) :
  Forall two_fields lines ->
  forall rm,
  exists rm',
    fold_left (fun rm line => do rm <- rm; load_line rm line) lines (Ok rm)
    = Ok rm' /\
    (forall line ch code,
       line ∈ lines -> split (strip line) = [ch; code] ->
       is_Some (rm' !! code)) /\
    (forall k,
       (forall line ch, line ∈ lines -> split (strip line) <> [ch; k]) ->
       rm' !! k = rm !! k) /\
    (forall k, is_Some (rm !! k) -> is_Some (rm' !! k)) /\
    (forall k v,
       rm' !! k = Some v ->
       rm !! k = Some v \/
       exists line, line ∈ lines /\ split (strip line) = [v; k]).
Proof.
  induction 1 as [|line lines (ch & code & Hline) Hall IH]; intros rm.
  - exists rm. cbn [fold_left]. split; [reflexivity|].
    split; [intros ? ? ? Hin; inversion Hin|].
    split; [reflexivity|]. split; [auto|]. intros k v Hk. left. exact Hk.
  - cbn [fold_left bind]. rewrite (load_line_two_fields rm line ch code Hline).
    destruct (IH (<[code := ch]> rm))
      as (rm' & Hfold & Hkeys & Hother & Hmono & Hfrom).
    exists rm'. split; [exact Hfold|]. split; [|split; [|split]].
    + intros line' ch' code' Hin Hl.
      apply elem_of_cons in Hin as [-> | Hin].
      * rewrite Hline in Hl. injection Hl as _ <-.
        apply Hmono. rewrite lookup_insert_eq. eauto.
      * eapply Hkeys; eassumption.
    + intros k Hk. rewrite Hother.
      * apply lookup_insert_ne. intros ->.
        apply (Hk line ch); [apply elem_of_cons; auto|exact Hline].
      * intros line' ch' Hin. apply Hk. apply elem_of_cons. auto.
    + intros k Hsome. apply Hmono.
      destruct (decide (code = k)) as [-> | Hne].
      * rewrite lookup_insert_eq. eauto.
      * rewrite lookup_insert_ne by exact Hne. exact Hsome.
    + intros k v Hk. destruct (Hfrom k v Hk) as [Hin | (line' & Hin & Hl)].
      * destruct (decide (code = k)) as [-> | Hne].
        -- rewrite lookup_insert_eq in Hin. injection Hin as ->.
           right. exists line. split; [apply elem_of_cons; auto|exact Hline].
        -- rewrite lookup_insert_ne in Hin by exact Hne. left. exact Hin.
      * right. exists line'. split; [apply elem_of_cons; auto|exact Hl].
Qed.

(** [X11] [decode_text] only adds to [self.reverse_mapping]. For any
    table file each of whose lines unpacks into two fields, whatever the
    names, the blanks between and around the fields and the line ends
    are: the call returns; the heap, the frequencies and the codes of the
    object are untouched; the second field of every line is a key
    afterwards; a key the object had before is still a key; a key that
    is the second field of no line keeps the entry it had; and every
    entry is one the object had before or the first field of a line with
    that key. *)
Theorem decode_text_keeps_entries (h : HuffmanCoding)
    (encoded_text file : str) :
  Forall two_fields (table_lines file) ->
  exists h' decoded_text,
    decode_text h encoded_text (Some file) = Ok (h', decoded_text) /\
    heap h' = heap h /\ frequency h' = frequency h /\ codes h' = codes h /\
    (forall line ch code,
       line ∈ table_lines file -> split (strip line) = [ch; code] ->
       is_Some (reverse_mapping h' !! code)) /\
    (forall k,
       is_Some (reverse_mapping h !! k) ->
       is_Some (reverse_mapping h' !! k)) /\
    (forall k,
       (forall line ch,
          line ∈ table_lines file -> split (strip line) <> [ch; k]) ->
       reverse_mapping h' !! k = reverse_mapping h !! k) /\
    (forall k v,
       reverse_mapping h' !! k = Some v ->
       reverse_mapping h !! k = Some v \/
       exists line,
         line ∈ table_lines file /\ split (strip line) = [v; k]).
Proof.
  intros Hlines.
  destruct (load_lines_spec (table_lines file) Hlines (reverse_mapping h))
    as (rm' & Hfold & Hkeys & Hother & Hmono & Hfrom).
  unfold decode_text, load_codes. fold (table_lines file).
  rewrite Hfold. cbn [bind]. eexists _, _. split; [reflexivity|].
  cbn [heap frequency codes reverse_mapping].
  repeat (split; [reflexivity|]).
  split; [exact Hkeys|]. split; [exact Hmono|]. split; [exact Hother|].
  exact Hfrom.
Qed.

(** A file with two-character names, a tab and several spaces between the
    fields, and carriage returns at the line ends, loaded by an object
    that has an entry for 111. *)
Lemma decode_text_keeps_entries_witness :
  exists h' decoded_text,
    decode_text
      (mkHuffmanCoding [] [] [] (<[str_of "111" := str_of "z"]> ∅))
      (str_of "0100")
      (Some [97; 98; 9; 48; 13; 10; 32; 92; 115; 32; 32; 49; 48; 13]%N)
    = Ok (h', decoded_text) /\
    reverse_mapping h' !! str_of "111" = Some (str_of "z") /\
    is_Some (reverse_mapping h' !! str_of "10").
Proof.
  destruct (decode_text_keeps_entries
              (mkHuffmanCoding [] [] [] (<[str_of "111" := str_of "z"]> ∅))
              (str_of "0100")
              [97; 98; 9; 48; 13; 10; 32; 92; 115; 32; 32; 49; 48; 13]%N)
    as (h' & out & Hd & _ & _ & _ & Hkeys & _ & Hkeep & _).
  - repeat (apply List.Forall_cons;
            [eexists _, _; vm_compute; reflexivity|]).
    apply List.Forall_nil.
  - exists h', out. split; [exact Hd|]. split.
    + rewrite Hkeep.
      * cbn [reverse_mapping]. apply lookup_insert_eq.
      * intros line ch Hin.
        repeat (apply elem_of_cons in Hin as [-> | Hin]);
          try (vm_compute; discriminate). inversion Hin.
    + apply (Hkeys [32; 92; 115; 32; 32; 49; 48; 10]%N (str_of "\s")).
      * apply elem_of_cons. right. apply elem_of_cons. left. reflexivity.
      * reflexivity.
Defined.

(** ** The encoded bits determine the text *)

Lemma build_codes_paths (freq : list (char * Z)) :
  freq <> [] -> NoDup (map fst freq) ->
  exists root,
    wf_tree root /\ leaf_items root ≡ₚ freq /\
    build_codes freq = Ok (paths root []).
Proof.
  intros Hne Hnd.
  destruct (build_tree new_HuffmanCoding freq)
    as (root & Hm & Hwf & Hit & _); [reflexivity|exact Hne|].
  exists root. split; [exact Hwf|]. split; [exact Hit|].
  unfold build_codes. rewrite Hm. cbn [bind]. unfold make_codes.
  cbn [heap]. rewrite heappop_singleton. cbn [bind].
  rewrite make_codes_helper_paths.
  destruct (fold_set_code_fields (paths root []) (mkHuffmanCoding [] [] [] ∅))
    as (_ & _ & Hcodes & _).
  cbn [heap frequency codes reverse_mapping new_HuffmanCoding] in *.
  rewrite Hcodes. f_equal. apply (fold_dict_set_NoDup _ []).
  cbn [app]. rewrite paths_symbols, (Permutation_map fst Hit). exact Hnd.
Qed.

(** [X12] The encoding loses nothing, whatever the alphabet: with the
    code table of a frequency map of at least two symbols, two texts over
    those symbols that [get_encoded_text] maps to the same bit string are
    the same text. *)
Theorem encoding_is_injective (freq : list (char * Z))
    (table : list (char * str)) (h : HuffmanCoding) (text1 text2 : str)
    (encoded_text : str) :
  NoDup (map fst freq) -> 2 <= length freq ->
  build_codes freq = Ok table -> codes h = table ->
  (forall c, c ∈ text1 -> c ∈ map fst freq) ->
  (forall c, c ∈ text2 -> c ∈ map fst freq) ->
  get_encoded_text h text1 = Ok encoded_text ->
  get_encoded_text h text2 = Ok encoded_text ->
  text1 = text2.
Proof.
  intros Hnd Hlen Hb Hh H1 H2 He1 He2.
  destruct (build_codes_paths freq) as (root & Hwf & Hit & Hb');
    [intros ->; simpl in Hlen; lia|exact Hnd|].
  rewrite Hb' in Hb. injection Hb as <-.
  assert (Hkeys : forall c, c ∈ map fst freq -> c ∈ map fst (paths root [])).
  { intros c Hc. rewrite paths_symbols, (Permutation_map fst Hit). exact Hc. }
  rewrite get_encoded_text_encode in He1
    by (rewrite Hh; intros c Hc; apply Hkeys, H1, Hc).
  rewrite get_encoded_text_encode in He2
    by (rewrite Hh; intros c Hc; apply Hkeys, H2, Hc).
  rewrite Hh in He1, He2. injection He1 as He1. injection He2 as He2.
  pose proof (paths_pairwise_free root Hwf []) as Hfree.
  assert (Hlen' : 2 <= length (leaf_items root)) by (rewrite Hit; exact Hlen).
  assert (Hdec : forall text,
    (forall c, c ∈ text -> c ∈ map fst freq) ->
    fold_left (decode_step (fold_left load_entry (paths root []) ∅))
      (encode (paths root []) text) ([], []) = ([], text)).
  { intros text Htext.
    apply (decode_encode (paths root [])
             (fold_left load_entry (paths root []) ∅)).
    - intros c k Hin. apply fold_load_entry_lookup; [exact Hin|].
      intros c' Hc'. apply (codes_injective (paths root []) c' c k); assumption.
    - intros k Hk. rewrite fold_load_entry_other by exact Hk.
      apply lookup_empty.
    - exact Hfree.
    - intros c Hc. apply Hkeys, Htext, Hc.
    - intros c k Hin. exact (codes_nonempty root c k Hwf Hlen' Hin). }
  pose proof (Hdec text1 H1) as D1. pose proof (Hdec text2 H2) as D2.
  rewrite He1 in D1. rewrite He2 in D2. rewrite D1 in D2.
  injection D2 as D2. exact D2.
Qed.

Lemma encoding_is_injective_witness :
  str_of "ab" ++ [9%N] = str_of "ab" ++ [9%N].
Proof.
  apply (encoding_is_injective
           (Counter (str_of "ab" ++ [9%N]))
           [(9%N, str_of "0"); (97%N, str_of "10"); (98%N, str_of "11")]
           (mkHuffmanCoding [] []
              [(9%N, str_of "0"); (97%N, str_of "10"); (98%N, str_of "11")] ∅)
           (str_of "ab" ++ [9%N]) (str_of "ab" ++ [9%N])
           (str_of "10110")).
  - apply (bool_decide_eq_true_1 _). vm_compute. reflexivity.
  - vm_compute. lia.
  - vm_compute. reflexivity.
  - reflexivity.
  - intros c Hc. repeat (apply elem_of_cons in Hc as [-> | Hc]);
      [apply (bool_decide_eq_true_1 _); vm_compute; reflexivity ..|].
    inversion Hc.
  - intros c Hc. repeat (apply elem_of_cons in Hc as [-> | Hc]);
      [apply (bool_decide_eq_true_1 _); vm_compute; reflexivity ..|].
    inversion Hc.
  - vm_compute. reflexivity.
  - vm_compute. reflexivity.
Defined.
